(** * astrodendro.components: the [Structure] node of a dendrogram

    A shallow embedding of [astrodendro/components.py].  Python objects live
    in a store (a finite map from object identities to records), because the
    class mutates shared objects: a constructor writes the [parent] of its
    children, [ancestor] and [level] write caches on the nodes they visit.

    Conventions of the embedding:
    - an attribute that an object may lack is an [option] field, and reading
      it when absent raises [AttributeError], as [getattr] does;
    - an attribute that holds [None] or an object is an [option] too
      ([parent], [_level], [_ancestor], [_descendants]): these are always
      assigned by [__init__], so [None] in the model is Python's [None];
    - pixel values are numbers; the model takes them in [Z] (Python integers
      are valid pixel values), so the order that [min] and [max] see is
      total: float values, a NaN among them, are outside the model;
    - coordinates are tuples of integers, and an array is the finite map
      from the coordinates of its cells, counted from the origin, to its
      entries: an index that is not such a coordinate is answered with
      [IndexError], where numpy also counts a negative component from the
      end of its axis and takes a short index for a whole sub-array; the
      properties that depend on the difference take indices inside the
      shape of the array ([in_shape]) as a hypothesis;
    - an exception ends the run: the store after a raise is not modelled;
    - recursive methods are bounded by the interpreter's recursion limit
      ([depth], exceeding it raises [RecursionError]); [while] loops take a
      step budget ([fuel]) whose exhaustion is the outcome [Spinning].

    Modelled: [__init__], [is_leaf], [indices], [indices_self], [values],
    [values_self], [_add_pixel], [_merge], [height], [ancestor],
    [fill_footprint], [level], [newick], [descendants], [get_npix],
    [get_peak].

    The file has two parts: the definitions (the embedding, the invariants
    of the store, example stores), then the properties. *)

From stdpp Require Import gmap list strings pretty.

Open Scope Z_scope.

(** ** Outcomes of a call *)

(** The exception kinds the module can raise, and [InvalidInput], the kind
    the design document names for rejected constructor arguments (no
    [raise] of the module mentions it). *)
Inductive exception :=
| AttributeError
| ValueError
| IndexError
| TypeError
| RecursionError   (* a RuntimeError before Python 3.5 *)
| OverflowError
| InvalidInput.

Inductive outcome (A : Type) : Type :=
| Ok (a : A)
| Raise (e : exception)
| Dangling   (* a reference that names no object of the store *)
| Spinning.  (* a while loop that is still running when the budget is spent *)

Arguments Ok {A} a.
Arguments Raise {A} e.
Arguments Dangling {A}.
Arguments Spinning {A}.

Definition bind {A B : Type} (m : outcome A) (k : A → outcome B) : outcome B :=
  match m with
  | Ok a => k a
  | Raise e => Raise e
  | Dangling => Dangling
  | Spinning => Spinning
  end.

Notation "'let*' x := m 'in' k" := (bind m (fun x => k))
  (at level 10, x name, m at level 100, k at level 200,
   format "'[v' 'let*'  x  :=  m  'in'  '/' k ']'").
Notation "'let*' ' p := m 'in' k" :=
  (bind m (fun x => match x with p => k end))
  (at level 10, p pattern, m at level 100, k at level 200,
   format "'[v' 'let*'  ' p  :=  m  'in'  '/' k ']'").

(** [returned o]: the call came back with a value. *)
Definition returned {A : Type} (o : outcome A) : bool :=
  match o with Ok _ => true | _ => false end.

(** ** Data model *)

(** Identity of an object in the store. *)
Definition ref := nat.
Bind Scope nat_scope with ref.

(** A pixel coordinate: a tuple of integers. *)
Definition coord := list Z.

(** The [values] argument of the constructor: [np.isscalar] tells a single
    number from a sequence. *)
Inductive pyvalues :=
| Scalar (v : Z)
| Seq (vs : list Z).

(** The pixel arguments [(indices, values)] of the constructor, in its two
    calling conventions: one coordinate with one scalar value, or a sequence
    of coordinates with a sequence of values. *)
Inductive pixels :=
| OnePixel (index : coord) (value : Z)
| ManyPixels (indices : list coord) (values : list Z).

Definition values_arg (px : pixels) : pyvalues :=
  match px with
  | OnePixel _ v => Scalar v
  | ManyPixels _ vs => Seq vs
  end.

(** The attributes of a [Structure] instance.  [vmin] and [vmax] are
    assigned only by [_add_pixel] and [_merge]; [_npix_total] and [_peak]
    only by [get_npix] and [get_peak] (tested with [hasattr]); [merge_level]
    only when the constructor receives children; [__init__] stores the
    minimum under [_vmin_sel] for a scalar and under [_vmin] for a
    sequence. *)
Record Structure := {
  merge_level : option pyvalues;
  parent : option ref;
  children : list ref;
  _indices : list coord;
  _values : list Z;
  _vmin_sel : option Z;
  _vmin : option Z;
  _vmax : Z;
  vmin : option Z;
  vmax : option Z;
  idx : option Z;
  _level : option Z;
  _ancestor : option ref;
  _descendants : option (list ref);
  _npix_total : option Z;
  _peak : option (coord * Z)
}.

(** The store of objects. *)
Abbreviation heap := (gmap ref Structure).

(** A numpy array, as the finite map from its in-bounds coordinates to its
    entries. *)
Abbreviation ndarray := (gmap coord Z).

(** *** Attribute writes on a record *)

Definition with_parent (p : option ref) (s : Structure) : Structure :=
  {| merge_level := merge_level s; parent := p; children := children s;
     _indices := _indices s; _values := _values s; _vmin_sel := _vmin_sel s;
     _vmin := _vmin s; _vmax := _vmax s; vmin := vmin s; vmax := vmax s;
     idx := idx s; _level := _level s; _ancestor := _ancestor s;
     _descendants := _descendants s; _npix_total := _npix_total s;
     _peak := _peak s |}.

Definition with_level (l : option Z) (s : Structure) : Structure :=
  {| merge_level := merge_level s; parent := parent s; children := children s;
     _indices := _indices s; _values := _values s; _vmin_sel := _vmin_sel s;
     _vmin := _vmin s; _vmax := _vmax s; vmin := vmin s; vmax := vmax s;
     idx := idx s; _level := l; _ancestor := _ancestor s;
     _descendants := _descendants s; _npix_total := _npix_total s;
     _peak := _peak s |}.

Definition with_ancestor (a : option ref) (s : Structure) : Structure :=
  {| merge_level := merge_level s; parent := parent s; children := children s;
     _indices := _indices s; _values := _values s; _vmin_sel := _vmin_sel s;
     _vmin := _vmin s; _vmax := _vmax s; vmin := vmin s; vmax := vmax s;
     idx := idx s; _level := _level s; _ancestor := a;
     _descendants := _descendants s; _npix_total := _npix_total s;
     _peak := _peak s |}.

Definition with_range (lo hi : Z) (s : Structure) : Structure :=
  {| merge_level := merge_level s; parent := parent s; children := children s;
     _indices := _indices s; _values := _values s; _vmin_sel := _vmin_sel s;
     _vmin := _vmin s; _vmax := _vmax s; vmin := Some lo; vmax := Some hi;
     idx := idx s; _level := _level s; _ancestor := _ancestor s;
     _descendants := _descendants s; _npix_total := _npix_total s;
     _peak := _peak s |}.

Definition with_npix_total (n : Z) (s : Structure) : Structure :=
  {| merge_level := merge_level s; parent := parent s; children := children s;
     _indices := _indices s; _values := _values s; _vmin_sel := _vmin_sel s;
     _vmin := _vmin s; _vmax := _vmax s; vmin := vmin s; vmax := vmax s;
     idx := idx s; _level := _level s; _ancestor := _ancestor s;
     _descendants := _descendants s; _npix_total := Some n;
     _peak := _peak s |}.

Definition with_peak (p : coord * Z) (s : Structure) : Structure :=
  {| merge_level := merge_level s; parent := parent s; children := children s;
     _indices := _indices s; _values := _values s; _vmin_sel := _vmin_sel s;
     _vmin := _vmin s; _vmax := _vmax s; vmin := vmin s; vmax := vmax s;
     idx := idx s; _level := _level s; _ancestor := _ancestor s;
     _descendants := _descendants s; _npix_total := _npix_total s;
     _peak := Some p |}.

(** *** Reading and writing through a reference *)

Definition deref (h : heap) (r : ref) : outcome Structure :=
  match h !! r with
  | Some s => Ok s
  | None => Dangling
  end.

(** [r.attr = ...]: apply the attribute write [f] to the object [r]. *)
Definition setattr (f : Structure → Structure) (r : ref) (h : heap)
  : outcome heap :=
  let* s := deref h r in
  Ok (<[r := f s]> h).

(** Reading an attribute that the object may lack. *)
Definition getattr {A : Type} (a : option A) : outcome A :=
  match a with
  | Some v => Ok v
  | None => Raise AttributeError
  end.

(** Reading an attribute that neither the class nor any of its methods
    defines ([f], [children_structures]). *)
Definition no_attribute {A : Type} : outcome A := Raise AttributeError.

(** *** Python built-ins used by the module *)

(** [min(values)] and [max(values)] on integers: [ValueError] on an empty
    sequence; the first of several equal extremes is kept, which on
    integers is not observable. *)
Definition py_min (vs : list Z) : outcome Z :=
  match vs with
  | [] => Raise ValueError
  | v :: vs' => Ok (foldl Z.min v vs')
  end.

Definition py_max (vs : list Z) : outcome Z :=
  match vs with
  | [] => Raise ValueError
  | v :: vs' => Ok (foldl Z.max v vs')
  end.

(** [len(l)]. *)
Definition len {A : Type} (l : list A) : Z := Z.of_nat (length l).

(** [l.index(v)]: position of the first occurrence, [ValueError] if none. *)
Fixpoint list_index (l : list Z) (v : Z) : outcome nat :=
  match l with
  | [] => Raise ValueError
  | x :: l' => if decide (x = v) then Ok 0%nat
               else let* i := list_index l' v in Ok (S i)
  end.

(** [l[i]] for a position [i]: [IndexError] out of range. *)
Definition subscript {A : Type} (l : list A) (i : nat) : outcome A :=
  match l !! i with
  | Some x => Ok x
  | None => Raise IndexError
  end.

(** [array[index] = v] for an [index] that is the coordinate of a cell,
    counted from the origin.  Any other index is answered with
    [IndexError]; numpy raises it too when a component lies beyond its axis
    or the index is too long, but wraps a negative component and assigns a
    whole sub-array for a short index. *)
Definition array_set (array : ndarray) (index : coord) (v : Z)
  : outcome ndarray :=
  match array !! index with
  | Some _ => Ok (<[index := v]> array)
  | None => Raise IndexError
  end.

(** [a - b] where [b] is whatever [merge_level] holds: a number minus a
    list is a [TypeError]. *)
Definition py_sub (a : Z) (b : pyvalues) : outcome Z :=
  match b with
  | Scalar v => Ok (a - v)
  | Seq _ => Raise TypeError
  end.

(** ** The constructor *)

(** [for child in children: child.parent = self]. *)
Fixpoint adopt (self : ref) (children : list ref) (h : heap) : outcome heap :=
  match children with
  | [] => Ok h
  | child :: rest =>
    let* h1 := setattr (with_parent (Some self)) child h in
    adopt self rest h1
  end.

(** [Structure.__init__(self, indices, values, children=[], idx=None)], on
    the freshly allocated object [self].  [merge_level] is assigned only
    under [if children:]; the scalar branch stores the minimum under
    [_vmin_sel], the sequence branch under [_vmin]; [min] and [max] of an
    empty sequence raise [ValueError]. *)
Definition __init__ (self : ref) (px : pixels) (children : list ref)
    (idx : option Z) (h : heap) : outcome heap :=
  let merge_level :=
    match children with
    | [] => None
    | _ :: _ => Some (values_arg px)
    end in
  let* h1 := adopt self children h in
  let* own :=
    match px with
    | OnePixel index value =>
      Ok ([index], [value], Some value, None, value)
    | ManyPixels indices values =>
      let* lo := py_min values in
      let* hi := py_max values in
      Ok (indices, values, None, Some lo, hi)
    end in
  let '(indices, values, vmin_sel, vmin_seq, vmax_own) := own in
  Ok (<[self :=
         {| merge_level := merge_level; parent := None; children := children;
            _indices := indices; _values := values; _vmin_sel := vmin_sel;
            _vmin := vmin_seq; _vmax := vmax_own; vmin := None; vmax := None;
            idx := idx; _level := None; _ancestor := None;
            _descendants := None; _npix_total := None; _peak := None |}]> h1).

(** ** Pixel views *)

(** [is_leaf]: [not self.children]. *)
Definition is_leaf (s : Structure) : bool :=
  match children s with
  | [] => true
  | _ :: _ => false
  end.

Definition indices_self (s : Structure) : list coord := _indices s.

Definition values_self (s : Structure) : list Z := _values s.

(** [for child in self.children: acc += child.<view>], from [acc]. *)
Fixpoint gather {A : Type} (view : ref → outcome (list A)) (cs : list ref)
    (acc : list A) : outcome (list A) :=
  match cs with
  | [] => Ok acc
  | child :: rest =>
    let* sub := view child in
    gather view rest (acc ++ sub)
  end.

(** The [indices] property: [self.indices_self + sub_indices]. *)
Fixpoint indices (depth : nat) (h : heap) (self : ref)
  : outcome (list coord) :=
  match depth with
  | O => Raise RecursionError
  | S d =>
    let* s := deref h self in
    let* sub_indices := gather (indices d h) (children s) [] in
    Ok (indices_self s ++ sub_indices)
  end.

(** The [values] property: after the loop over the children it returns
    [self.values + sub_values], which calls the property itself again. *)
Fixpoint values (depth : nat) (h : heap) (self : ref) : outcome (list Z) :=
  match depth with
  | O => Raise RecursionError
  | S d =>
    let* s := deref h self in
    let* sub_values := gather (values d h) (children s) [] in
    let* own := values d h self in
    Ok (own ++ sub_values)
  end.

(** ** Mutation during the computation of the dendrogram *)

(** [_add_pixel]: [self.indices.append(index)] and
    [self.values.append(value)] append to the list the property has just
    built, not to [_indices] or [_values]; then the range is read from and
    written to [vmin] and [vmax]. *)
Definition _add_pixel (depth : nat) (self : ref) (index : coord) (value : Z)
    (h : heap) : outcome heap :=
  let* _ := indices depth h self in
  let* _ := values depth h self in
  let* s := deref h self in
  let* lo := getattr (vmin s) in
  let* hi := getattr (vmax s) in
  setattr (with_range (Z.min value lo) (Z.max value hi)) self h.

(** [_merge]: the same pattern with another structure's pixels and range. *)
Definition _merge (depth : nat) (self structure : ref) (h : heap)
  : outcome heap :=
  let* _ := indices depth h self in
  let* _ := indices depth h structure in
  let* _ := values depth h self in
  let* _ := values depth h structure in
  let* o := deref h structure in
  let* s := deref h self in
  let* olo := getattr (vmin o) in
  let* lo := getattr (vmin s) in
  let* ohi := getattr (vmax o) in
  let* hi := getattr (vmax s) in
  setattr (with_range (Z.min olo lo) (Z.max ohi hi)) self h.

(** ** Height *)

(** The [height] property reads [self.vmax] first in both branches. *)
Definition height (h : heap) (self : ref) : outcome Z :=
  let* s := deref h self in
  match parent s with
  | None =>
    let* hi := getattr (vmax s) in
    let* lo := getattr (vmin s) in
    Ok (hi - lo)
  | Some p =>
    let* hi := getattr (vmax s) in
    let* ps := deref h p in
    let* ml := getattr (merge_level ps) in
    py_sub hi ml
  end.

(** ** Ancestor *)

(** The loop [while self._ancestor.parent: ...] of [ancestor]: each turn
    replaces [self._ancestor] by the cached ancestor of the node it points
    to, or by that node's parent.  Only [self] is written. *)
Fixpoint ancestor_loop (fuel : nat) (self : ref) (h : heap) : outcome heap :=
  match fuel with
  | O => Spinning
  | S fuel' =>
    let* s := deref h self in
    let* a := getattr (_ancestor s) in
    let* sa := deref h a in
    match parent sa with
    | None => Ok h
    | Some p =>
      let next :=
        match _ancestor sa with
        | Some a' => a'
        | None => p
        end in
      let* h1 := setattr (with_ancestor (Some next)) self h in
      ancestor_loop fuel' self h1
    end
  end.

(** The [ancestor] property.  It returns [self] for a parentless node, and
    [self._ancestor] after the loop otherwise. *)
Definition ancestor (fuel : nat) (self : ref) (h : heap)
  : outcome (option ref * heap) :=
  let* s := deref h self in
  match parent s with
  | None => Ok (Some self, h)
  | Some p =>
    let* h1 :=
      match _ancestor s with
      | None => setattr (with_ancestor (Some p)) self h
      | Some _ => Ok h
      end in
    let* h2 := ancestor_loop fuel self h1 in
    let* s2 := deref h2 self in
    Ok (_ancestor s2, h2)
  end.

(** ** Level *)

(** The loop [while obj._level is None: obj = obj.parent; diff += 1].
    Climbing past a root makes [obj] [None], whose [_level] is an
    [AttributeError]. *)
Fixpoint level_loop (fuel : nat) (h : heap) (obj : option ref) (diff : Z)
  : outcome (ref * Z) :=
  match fuel with
  | O => Spinning
  | S fuel' =>
    match obj with
    | None => Raise AttributeError
    | Some o =>
      let* so := deref h o in
      match _level so with
      | None => level_loop fuel' h (parent so) (diff + 1)
      | Some _ => Ok (o, diff)
      end
    end
  end.

(** [x + diff] where [x] is what a [_level] attribute holds. *)
Definition level_plus (x : option Z) (diff : Z) : outcome Z :=
  match x with
  | Some l => Ok (l + diff)
  | None => Raise TypeError
  end.

(** The [level] property.  It returns [self._level], after filling it in
    when it is [None]; the last branch also writes [self.parent._level]. *)
Definition level (fuel : nat) (self : ref) (h : heap)
  : outcome (option Z * heap) :=
  let* s := deref h self in
  let* h' :=
    match _level s with
    | Some _ => Ok h
    | None =>
      match parent s with
      | None => setattr (with_level (Some 0)) self h
      | Some p =>
        let* ps := deref h p in
        match _level ps with
        | Some pl => setattr (with_level (Some (pl + 1))) self h
        | None =>
          let* '(obj, diff) := level_loop fuel h (Some p) 1 in
          let* so := deref h obj in
          let* l := level_plus (_level so) diff in
          let* h1 := setattr (with_level (Some l)) self h in
          let* s1 := deref h1 self in
          let* p1 := getattr (parent s1) in
          let* l1 := level_plus (_level s1) (-1) in
          setattr (with_level (Some l1)) p1 h1
        end
      end
    end in
  let* s' := deref h' self in
  Ok (_level s', h').

(** ** Footprint *)

(** A value stored into the array must be a number. *)
Definition array_value (x : option Z) : outcome Z :=
  match x with
  | Some v => Ok v
  | None => Raise TypeError
  end.

(** [for index in idxs: array[index] = self.level]. *)
Fixpoint stamp (fuel : nat) (self : ref) (idxs : list coord)
    (array : ndarray) (h : heap) : outcome (ndarray * heap) :=
  match idxs with
  | [] => Ok (array, h)
  | index :: rest =>
    let* '(l, h1) := level fuel self h in
    let* v := array_value l in
    let* array1 := array_set array index v in
    stamp fuel self rest array1 h1
  end.

(** [for child in self.children: child.fill_footprint(array)]. *)
Fixpoint fill_children
    (fill : ref → ndarray → heap → outcome (ndarray * heap))
    (cs : list ref) (array : ndarray) (h : heap) : outcome (ndarray * heap) :=
  match cs with
  | [] => Ok (array, h)
  | child :: rest =>
    let* '(array1, h1) := fill child array h in
    fill_children fill rest array1 h1
  end.

(** [fill_footprint(self, array, recursive=True)]: the children first (with
    the default [recursive]), then [for index in self.indices], the
    full-subtree property. *)
Fixpoint fill_footprint (depth fuel : nat) (self : ref) (array : ndarray)
    (recursive : bool) (h : heap) : outcome (ndarray * heap) :=
  match depth with
  | O => Raise RecursionError
  | S d =>
    let* s := deref h self in
    let* '(array1, h1) :=
      if recursive
      then fill_children (fun child a => fill_footprint d fuel child a true)
                         (children s) array h
      else Ok (array, h) in
    let* idxs := indices d h1 self in
    stamp fuel self idxs array1 h1
  end.

(** ** Pixel count and peak *)

(** [sum([len(node.values) for node in nodes])]. *)
Fixpoint sum_len_values (depth : nat) (h : heap) (nodes : list ref)
  : outcome Z :=
  match nodes with
  | [] => Ok 0
  | node :: rest =>
    let* vs := values depth h node in
    let* n := sum_len_values depth h rest in
    Ok (len vs + n)
  end.

(** [get_npix(self, subtree=False)].  The own count is [len(self.f)]; the
    subtree count is cached in [_npix_total], filled from [self.values] and
    [self.children_structures]. *)
Definition get_npix (depth : nat) (self : ref) (subtree : bool) (h : heap)
  : outcome (Z * heap) :=
  let* s := deref h self in
  if negb subtree then
    let* f := no_attribute (A := list Z) in
    Ok (len f, h)
  else
    let* h' :=
      match _npix_total s with
      | Some _ => Ok h
      | None =>
        let* vs := values depth h self in
        let* h1 := setattr (with_npix_total (len vs)) self h in
        let* nodes := no_attribute (A := list ref) in
        let* more := sum_len_values depth h1 nodes in
        let* s1 := deref h1 self in
        let* n := getattr (_npix_total s1) in
        setattr (with_npix_total (n + more)) self h1
      end in
    let* s' := deref h' self in
    let* n := getattr (_npix_total s') in
    Ok (n, h').

(** The first statement of [get_peak]: fill the cache [_peak] with
    [(self.indices[self.values.index(self.vmax)], self.vmax)] when the
    object has none, then read it. *)
Definition get_peak_self (depth : nat) (self : ref) (h : heap)
  : outcome ((coord * Z) * heap) :=
  let* s := deref h self in
  let* h' :=
    match _peak s with
    | Some _ => Ok h
    | None =>
      let* idxs := indices depth h self in
      let* vals := values depth h self in
      let* top := getattr (vmax s) in
      let* i := list_index vals top in
      let* index := subscript idxs i in
      let* top' := getattr (vmax s) in
      setattr (with_peak (index, top')) self h
    end in
  let* s' := deref h' self in
  let* pk := getattr (_peak s') in
  Ok (pk, h').

(** [for node in nodes: if found[1] < node.vmax: found = node.get_peak()]. *)
Fixpoint peak_scan (depth : nat) (nodes : list ref) (found : coord * Z)
    (h : heap) : outcome ((coord * Z) * heap) :=
  match nodes with
  | [] => Ok (found, h)
  | node :: rest =>
    let* sn := deref h node in
    let* top := getattr (vmax sn) in
    if decide (found.2 < top) then
      let* '(pk, h1) := get_peak_self depth node h in
      peak_scan depth rest pk h1
    else peak_scan depth rest found h
  end.

(** [get_peak(self, subtree=False)]. *)
Definition get_peak (depth : nat) (self : ref) (subtree : bool) (h : heap)
  : outcome ((coord * Z) * heap) :=
  let* '(pk, h1) := get_peak_self depth self h in
  if negb subtree then Ok (pk, h1)
  else
    let* nodes := no_attribute (A := list ref) in
    peak_scan depth nodes pk h1.

(** ** Shape of the store *)

(** [climbs h x n a]: following [n] parent links from [x] leads to [a],
    through objects of the store. *)
Inductive climbs (h : heap) : ref → nat → ref → Prop :=
| climbs_here x s :
    h !! x = Some s → climbs h x 0 x
| climbs_up x s p n a :
    h !! x = Some s → parent s = Some p → climbs h p n a →
    climbs h x (S n) a.

(** A root: an object with no parent. *)
Definition is_root (h : heap) (r : ref) : Prop :=
  ∃ s, h !! r = Some s ∧ parent s = None.

(** The parent links form a forest (no cycle, no link out of the store):
    every object reaches a root. *)
Definition forest (h : heap) : Prop :=
  ∀ x s, h !! x = Some s → ∃ n r, climbs h x n r ∧ is_root h r.

(** The children links stay inside the store. *)
Definition closed (h : heap) : Prop :=
  ∀ x s c, h !! x = Some s → c ∈ children s → is_Some (h !! c).

(** The [_ancestor] caches are sound: a cached pointer names a proper
    ancestor.  [__init__] leaves the cache empty and [ancestor] only writes
    such pointers ([ancestor_keeps_forest_cache]). *)
Definition ancestors_cached (h : heap) : Prop :=
  ∀ x s a, h !! x = Some s → _ancestor s = Some a → ∃ n, climbs h x (S n) a.

(** The [_level] caches are sound: a cached level is the number of parent
    links up to the root. *)
Definition levels_cached (h : heap) : Prop :=
  ∀ x s l n r, h !! x = Some s → _level s = Some l →
    climbs h x n r → is_root h r → l = Z.of_nat n.

(** What [level] counts on (the comment in its loop): the computation of the
    dendrogram has set [_level = 0] on every node of the trunk. *)
Definition trunk_levelled (h : heap) : Prop :=
  ∀ r s, h !! r = Some s → parent s = None → _level s = Some 0.

(** Two stores with the same parent links. *)
Definition same_links (h h' : heap) : Prop :=
  ∀ y, parent <$> h !! y = parent <$> h' !! y.

(** The store that [ancestor] leaves: the root in the cache of the queried
    node when it has a parent, the same store when it has none. *)
Definition ancestor_cached (h : heap) (x r : ref) : heap :=
  match h !! x with
  | Some s =>
    match parent s with
    | Some _ => <[x := with_ancestor (Some r) s]> h
    | None => h
    end
  | None => h
  end.

(** The store that [level] leaves when it returns [n]: nothing new when the
    level of [x] was cached; else [n] in the cache of [x] and, when the
    parent had no cached level either, [n - 1] in the cache of the
    parent. *)
Definition level_backfilled (h : heap) (x : ref) (n : Z) : heap :=
  match h !! x with
  | Some s =>
    match _level s, parent s with
    | Some _, _ => h
    | None, None => <[x := with_level (Some n) s]> h
    | None, Some p =>
      match h !! p with
      | Some ps =>
        match _level ps with
        | Some _ => <[x := with_level (Some n) s]> h
        | None =>
          <[p := with_level (Some (n - 1)) ps]>
            (<[x := with_level (Some n) s]> h)
        end
      | None => h
      end
    end
  | None => h
  end.

(** The stores the class can produce: objects are built on fresh
    identities, a branch is built over existing roots (a node's parent is set
    once and never changes), and any modelled method may be called at any
    time on any object. *)
Inductive reachable : heap → Prop :=
| reachable_empty : reachable ∅
| reachable_init h self px cs idx h' :
    reachable h → h !! self = None → (∀ c, c ∈ cs → is_root h c) →
    __init__ self px cs idx h = Ok h' → reachable h'
| reachable_add_pixel h depth x index value h' :
    reachable h → _add_pixel depth x index value h = Ok h' → reachable h'
| reachable_merge h depth x other h' :
    reachable h → _merge depth x other h = Ok h' → reachable h'
| reachable_ancestor h fuel x r h' :
    reachable h → ancestor fuel x h = Ok (r, h') → reachable h'
| reachable_level h fuel x l h' :
    reachable h → level fuel x h = Ok (l, h') → reachable h'
| reachable_fill_footprint h depth fuel x array recursive a h' :
    reachable h →
    fill_footprint depth fuel x array recursive h = Ok (a, h') →
    reachable h'
| reachable_get_npix h depth x subtree n h' :
    reachable h → get_npix depth x subtree h = Ok (n, h') → reachable h'
| reachable_get_peak h depth x subtree pk h' :
    reachable h → get_peak depth x subtree h = Ok (pk, h') → reachable h'.

(** No object has the attributes that only [_add_pixel], [_merge],
    [get_npix] and [get_peak] assign. *)
Definition unassigned (h : heap) : Prop :=
  ∀ x s, h !! x = Some s →
    vmin s = None ∧ vmax s = None ∧ _npix_total s = None ∧ _peak s = None.

(** Two stores that differ at most in the [_level] caches. *)
Definition same_but_levels (h h' : heap) : Prop :=
  ∀ y, with_level None <$> h' !! y = with_level None <$> h !! y.

(** *** The same invariants as checks that compute on a given store *)

Definition all_objects (P : ref → Structure → bool) (h : heap) : bool :=
  forallb (λ xs, P xs.1 xs.2) (map_to_list h).

(** The root above [x] and the number of links up to it, found within
    [fuel] links. *)
Fixpoint root_of (fuel : nat) (h : heap) (x : ref) : option (nat * ref) :=
  match fuel with
  | O => None
  | S fuel' =>
    match h !! x with
    | None => None
    | Some s =>
      match parent s with
      | None => Some (0%nat, x)
      | Some p =>
        match root_of fuel' h p with
        | Some (n, r) => Some (S n, r)
        | None => None
        end
      end
    end
  end.

Definition closedb (h : heap) : bool :=
  all_objects
    (λ _ s, forallb (λ c, bool_decide (is_Some (h !! c))) (children s)) h.

Definition forestb (h : heap) : bool :=
  all_objects (λ x _, bool_decide (is_Some (root_of (size h) h x))) h.

Definition no_ancestor_cachedb (h : heap) : bool :=
  all_objects (λ _ s, bool_decide (_ancestor s = None)) h.

Definition levels_cachedb (h : heap) : bool :=
  all_objects
    (λ x s, match _level s, root_of (size h) h x with
            | Some l, Some (n, _) => bool_decide (l = Z.of_nat n)
            | Some _, None => false
            | None, _ => true
            end) h.

Definition trunk_levelledb (h : heap) : bool :=
  all_objects
    (λ _ s, match parent s with
            | None => bool_decide (_level s = Some 0)
            | Some _ => true
            end) h.

(** ** Example stores *)

(** The store a sequence of constructor calls ends in. *)
Definition the_store (o : outcome heap) : heap :=
  match o with
  | Ok h => h
  | _ => ∅
  end.

(** Two one-pixel leaves [L1 = 0] at (0,0) with value 5 and [L2 = 1] at
    (1,1) with value 3, merged under the branch [B = 2] built with the
    value 2 at (2,2). *)
Definition build_pair : outcome heap :=
  let* h1 := __init__ 0 (OnePixel [0; 0] 5) [] (Some 0) ∅ in
  let* h2 := __init__ 1 (OnePixel [1; 1] 3) [] (Some 1) h1 in
  __init__ 2 (OnePixel [2; 2] 2) [0; 1]%nat (Some 2) h2.

Definition pair_store : heap := the_store build_pair.

(** The same store once the level of the root [B] has been queried. *)
Definition pair_levelled : heap :=
  the_store (let* '(_, h) := level 0 2 pair_store in Ok h).

(** A chain root = 3 → A = 2 → B = 1 → C = 0, each with a single child. *)
Definition build_chain : outcome heap :=
  let* h1 := __init__ 0 (OnePixel [0; 0] 9) [] (Some 0) ∅ in
  let* h2 := __init__ 1 (OnePixel [1; 0] 7) [0%nat] (Some 1) h1 in
  let* h3 := __init__ 2 (OnePixel [2; 0] 5) [1%nat] (Some 2) h2 in
  __init__ 3 (OnePixel [3; 0] 3) [2%nat] (Some 3) h3.

Definition chain_store : heap := the_store build_chain.

(** The chain once the level of its root has been queried. *)
Definition chain_levelled : heap :=
  the_store (let* '(_, h) := level 0 3 chain_store in Ok h).

(** A 4-cell array of zeros over (0,0), (1,1), (2,2), (3,3). *)
Definition zeros : ndarray :=
  <[[0; 0] := 0]> (<[[1; 1] := 0]> (<[[2; 2] := 0]> (<[[3; 3] := 0]> ∅))).

(** The coordinates inside an array of the given shape: one component per
    axis, counted from the origin and below the length of the axis. *)
Definition in_shape (shape : list nat) (index : coord) : Prop :=
  Forall2 (λ n k, 0 ≤ k < Z.of_nat n) shape index.

(** An array of the given shape: its cells are the coordinates inside the
    shape. *)
Definition has_shape (array : ndarray) (shape : list nat) : Prop :=
  ∀ i, is_Some (array !! i) ↔ in_shape shape i.

(** All coordinates inside a shape, and [np.full(shape, v)]. *)
Fixpoint coords (shape : list nat) : list coord :=
  match shape with
  | [] => [[]]
  | n :: rest => k ← (Z.of_nat <$> seq 0 n); (k ::.) <$> coords rest
  end.

Definition full (shape : list nat) (v : Z) : ndarray :=
  list_to_map ((λ i, (i, v)) <$> coords shape).

(** The cached level and cached ancestor of an object, for reading a store. *)
Definition cached_level (h : heap) (x : ref) : option (option Z) :=
  _level <$> h !! x.

Definition cached_ancestor (h : heap) (x : ref) : option (option ref) :=
  _ancestor <$> h !! x.

(** ** Descendants and Newick text *)

(** The [descendants] property.  Its first statement tests
    [self.descendants is None], which calls the property itself.  Were that
    call to return [None], the next statement [self.descendants = []] would
    assign to a property that has no setter ([AttributeError]); were it to
    return a list, the property would return [self.descendants], one more
    call of itself.  The breadth-first loop below the assignment is never
    reached, and [_descendants] is never read. *)
Fixpoint descendants (depth : nat) (h : heap) (self : ref)
  : outcome (option (list ref)) :=
  match depth with
  | O => Raise RecursionError
  | S d =>
    let* ds := descendants d h self in
    match ds with
    | None => Raise AttributeError
    | Some _ => descendants d h self
    end
  end.

(** ["%i" % idx]: a number is required. *)
Definition format_i (idx : option Z) : outcome string :=
  match idx with
  | Some i => Ok (pretty i)
  | None => Raise TypeError
  end.

(** ["%s" % idx]: [str(idx)]. *)
Definition format_s (idx : option Z) : string :=
  match idx with
  | Some i => pretty i
  | None => "None"
  end.

(** [float(n)] for an integer [n], read back as an integer: the nearest
    number with a mantissa of 53 bits, a tie going to the even mantissa;
    [OverflowError] from 2^1024 on. *)
Definition float_of_int (n : Z) : outcome Z :=
  let a := Z.abs n in
  let e := Z.max 0 (Z.log2 a + 1 - 53) in
  let q := Z.shiftr a e in
  let rest := a - Z.shiftl q e in
  let half := Z.shiftl 1 (e - 1) in
  let q' := if (0 <? e) && ((half <? rest) || ((rest =? half) && Z.odd q))
            then q + 1 else q in
  let r := Z.shiftl q' e in
  if 2 ^ 1024 <=? r then Raise OverflowError else Ok (Z.sgn n * r).

(** ["%.3f" % height] for an integer height: the height is converted to a
    float, whose decimals are zeros. *)
Definition format_3f (height : Z) : outcome string :=
  let* f := float_of_int height in
  Ok (pretty f +:+ ".000").

(** [[child.newick for child in children]]. *)
Fixpoint newick_items (view : ref → outcome string) (cs : list ref)
  : outcome (list string) :=
  match cs with
  | [] => Ok []
  | child :: rest =>
    let* item := view child in
    let* items := newick_items view rest in
    Ok (item :: items)
  end.

(** The [newick] property.  The arguments of [%] are evaluated before the
    text is formatted: the children's texts, then [self.idx], then
    [self.height]. *)
Fixpoint newick (depth : nat) (h : heap) (self : ref) : outcome string :=
  match depth with
  | O => Raise RecursionError
  | S d =>
    let* s := deref h self in
    match children s with
    | _ :: _ =>
      let* items := newick_items (newick d h) (children s) in
      let* ht := height h self in
      let* t := format_3f ht in
      Ok ("(" +:+ String.concat "," items +:+ ")" +:+ format_s (idx s)
          +:+ ":" +:+ t)
    | [] =>
      let* ht := height h self in
      let* i := format_i (idx s) in
      let* t := format_3f ht in
      Ok (i +:+ ":" +:+ t)
    end
  end.

(** ** More on the shape of the store *)

(** An object without its two caches. *)
Definition uncached (s : Structure) : Structure :=
  with_level None (with_ancestor None s).

(** Two stores that differ at most in the [_level] and [_ancestor]
    caches. *)
Definition same_data (h h' : heap) : Prop :=
  ∀ y, uncached <$> h' !! y = uncached <$> h !! y.

(** One call that returns, under the discipline of [reachable]: objects are
    built on fresh identities and branches over existing roots. *)
Inductive step : heap → heap → Prop :=
| step_init h self px cs idx h' :
    h !! self = None → (∀ c, c ∈ cs → is_root h c) →
    __init__ self px cs idx h = Ok h' → step h h'
| step_add_pixel h depth x index value h' :
    _add_pixel depth x index value h = Ok h' → step h h'
| step_merge h depth x other h' :
    _merge depth x other h = Ok h' → step h h'
| step_ancestor h fuel x r h' :
    ancestor fuel x h = Ok (r, h') → step h h'
| step_level h fuel x l h' :
    level fuel x h = Ok (l, h') → step h h'
| step_fill_footprint h depth fuel x array recursive a h' :
    fill_footprint depth fuel x array recursive h = Ok (a, h') → step h h'
| step_get_npix h depth x subtree n h' :
    get_npix depth x subtree h = Ok (n, h') → step h h'
| step_get_peak h depth x subtree pk h' :
    get_peak depth x subtree h = Ok (pk, h') → step h h'.

(** [tall h x n]: the children links below [x] stay in the store and go at
    most [n - 1] links deep. *)
Inductive tall (h : heap) : ref → nat → Prop :=
| tall_node x s n :
    h !! x = Some s → (∀ c, c ∈ children s → tall h c n) →
    tall h x (S n).

(** No object has a cached level, as a check that computes. *)
Definition no_level_cachedb (h : heap) : bool :=
  all_objects (λ _ s, bool_decide (_level s = None)) h.

(** ** Proof steps used throughout *)

(** [Hn : climbs h x 0 r] and [Hr : is_root h r] while [x] has a parent:
    impossible. *)
Ltac parented Hn Hr :=
  inversion Hn; subst; destruct Hr as (? & ? & ?); congruence.

(** * Properties *)

(** ** Outcomes *)

Lemma bind_Ok {A B : Type} (m : outcome A) (k : A → outcome B) (b : B) :
  bind m k = Ok b → ∃ a, m = Ok a ∧ k a = Ok b.
Proof. destruct m; simpl; intros H; try discriminate. eauto. Qed.

Lemma bind_not_returned {A B : Type} (m : outcome A) (k : A → outcome B) :
  returned m = false → returned (bind m k) = false.
Proof. by destruct m. Qed.

Lemma returned_Ok {A : Type} (o : outcome A) :
  returned o = true → ∃ a, o = Ok a.
Proof. destruct o; simpl; intros H; try discriminate. eauto. Qed.

Lemma deref_Some (h : heap) (r : ref) (s : Structure) :
  h !! r = Some s → deref h r = Ok s.
Proof. unfold deref. by intros ->. Qed.

Lemma deref_Ok (h : heap) (r : ref) (s : Structure) :
  deref h r = Ok s → h !! r = Some s.
Proof. unfold deref. destruct (h !! r); by intros [= ->]. Qed.

Lemma setattr_Some (f : Structure → Structure) (h : heap) (r : ref)
    (s : Structure) :
  h !! r = Some s → setattr f r h = Ok (<[r := f s]> h).
Proof. unfold setattr. intros H. by rewrite (deref_Some _ _ _ H). Qed.

(** ** The constructor *)

(** [adopt] either visits only objects of the store or stops on a dangling
    reference; it raises nothing. *)
Lemma adopt_no_raise (self : ref) (cs : list ref) (h : heap) (e : exception) :
  adopt self cs h ≠ Raise e.
Proof.
  revert h. induction cs as [|c cs IH]; intros h; simpl; [done|].
  unfold setattr, deref. destruct (h !! c); simpl; [apply IH | done].
Qed.

(** What a successful call stores under [self], whatever the children. *)
Lemma init_Ok (self : ref) (px : pixels) (cs : list ref) (idx : option Z)
    (h h' : heap) :
  __init__ self px cs idx h = Ok h' →
  ∃ h1 s, adopt self cs h = Ok h1 ∧ h' = <[self := s]> h1
    ∧ merge_level s = match cs with [] => None | _ => Some (values_arg px) end
    ∧ parent s = None ∧ children s = cs
    ∧ match px with
      | OnePixel i v => _indices s = [i] ∧ _values s = [v]
      | ManyPixels ixs vs => _indices s = ixs ∧ _values s = vs ∧ vs ≠ []
      end
    ∧ vmin s = None ∧ vmax s = None
    ∧ _level s = None ∧ _ancestor s = None
    ∧ _npix_total s = None ∧ _peak s = None.
Proof.
  unfold __init__. intros H.
  apply bind_Ok in H as (h1 & Hadopt & H).
  apply bind_Ok in H as (own & Hown & H).
  destruct own as [[[[ixs vs] vs1] vm] vx]. injection H as <-.
  eexists h1, _. split; [done|]. split; [done|]. simpl.
  destruct px as [i v | ixs' vs'].
  - injection Hown as <- <- <- <- <-. by repeat split.
  - destruct vs' as [|v vs']; [discriminate|].
    simpl in Hown. injection Hown as <- <- <- <- <-. by repeat split.
Qed.

(** C10.  One constructor builds leaves and branches.  Whenever it is given
    children and returns, the new object has [merge_level] equal to the
    [values] argument as passed (a whole sequence when a sequence was
    passed) and also holds the [indices]/[values] arguments as its own
    pixels, of which there is at least one value. *)
Theorem init_branch_keeps_values (self : ref) (px : pixels) (c : ref)
    (cs : list ref) (idx : option Z) (h h' : heap) :
  __init__ self px (c :: cs) idx h = Ok h' →
  ∃ s, h' !! self = Some s
    ∧ is_leaf s = false
    ∧ children s = c :: cs
    ∧ merge_level s = Some (values_arg px)
    ∧ (∀ ixs vs, px = ManyPixels ixs vs → merge_level s = Some (Seq vs))
    ∧ match px with
      | OnePixel i v => indices_self s = [i] ∧ values_self s = [v]
      | ManyPixels ixs vs => indices_self s = ixs ∧ values_self s = vs
      end
    ∧ values_self s ≠ [].
Proof.
  intros H. apply init_Ok in H as (h1 & s & _ & -> & Hml & _ & Hcs & Hpx & _).
  exists s. rewrite lookup_insert_eq.
  unfold is_leaf, indices_self, values_self. rewrite Hcs.
  split; [done|]. split; [done|]. split; [done|]. split; [done|].
  split; [by intros ixs vs ->|].
  destruct px as [i v | ixs vs].
  - destruct Hpx as [-> ->]. done.
  - destruct Hpx as (-> & -> & Hne). done.
Qed.

(** A branch over a one-pixel leaf, built with a sequence of two values. *)
Lemma init_branch_keeps_values_witness :
  ∃ s, the_store (__init__ 1 (ManyPixels [[0; 1]; [0; 2]] [4; 7]) [0%nat] None
                   (the_store (__init__ 0 (OnePixel [0; 0] 9) [] None ∅)))
         !! 1%nat = Some s
    ∧ is_leaf s = false
    ∧ children s = [0%nat]
    ∧ merge_level s = Some (values_arg (ManyPixels [[0; 1]; [0; 2]] [4; 7]))
    ∧ (∀ ixs vs, ManyPixels [[0; 1]; [0; 2]] [4; 7] = ManyPixels ixs vs →
         merge_level s = Some (Seq vs))
    ∧ (indices_self s = [[0; 1]; [0; 2]] ∧ values_self s = [4; 7])
    ∧ values_self s ≠ [].
Proof.
  apply (init_branch_keeps_values 1 (ManyPixels [[0; 1]; [0; 2]] [4; 7])
           0%nat [] None
           (the_store (__init__ 0 (OnePixel [0; 0] 9) [] None ∅))).
  vm_compute. reflexivity.
Defined.

(** C2, as the code has it.  A leaf built from an empty sequence of pixels
    raises [ValueError] (from [min] of the empty sequence); the constructor
    given no children does not fail: from one pixel or from a non-empty
    sequence it returns a leaf without [merge_level]; and no call of the
    constructor raises [InvalidInput]. *)
Theorem init_empty_arguments :
  (∀ self ixs idx h,
     __init__ self (ManyPixels ixs []) [] idx h = Raise ValueError)
  ∧ (∀ self i v idx h, ∃ s,
       __init__ self (OnePixel i v) [] idx h = Ok (<[self := s]> h)
       ∧ is_leaf s = true ∧ merge_level s = None)
  ∧ (∀ self ixs v vs idx h, ∃ s,
       __init__ self (ManyPixels ixs (v :: vs)) [] idx h = Ok (<[self := s]> h)
       ∧ is_leaf s = true ∧ merge_level s = None)
  ∧ (∀ self px cs idx h, __init__ self px cs idx h ≠ Raise InvalidInput).
Proof.
  split; [reflexivity|]. split; [|split].
  - intros. eexists. split; [reflexivity|]. done.
  - intros. eexists. split; [reflexivity|]. done.
  - intros self px cs idx h. unfold __init__.
    pose proof (adopt_no_raise self cs h InvalidInput) as Hadopt.
    destruct (adopt self cs h) as [h1| | |]; simpl; try done.
    destruct px as [i v | ixs [|v vs]]; simpl; done.
Qed.

(** C2 fails as stated: an empty children sequence is accepted, and an empty
    pixel sequence raises [ValueError], not [InvalidInput]. *)
Lemma init_InvalidInput_counterexample :
  __init__ 0 (OnePixel [0; 0] 5) [] None ∅ ≠ Raise InvalidInput
  ∧ returned (__init__ 0 (OnePixel [0; 0] 5) [] None ∅) = true
  ∧ __init__ 0 (ManyPixels [] []) [] None ∅ ≠ Raise InvalidInput.
Proof. by vm_compute. Qed.

(** ** Pixel views *)

Lemma all_objects_spec (P : ref → Structure → bool) (h : heap) (x : ref)
    (s : Structure) :
  all_objects P h = true → h !! x = Some s → P x s = true.
Proof.
  unfold all_objects. rewrite forallb_forall. intros H Hs.
  apply (H (x, s)). apply list_elem_of_In. by apply elem_of_map_to_list.
Qed.

Lemma closedb_closed (h : heap) : closedb h = true → closed h.
Proof.
  intros Hb x s c Hx Hc.
  pose proof (all_objects_spec _ _ _ _ Hb Hx) as H. simpl in H.
  rewrite forallb_forall in H.
  eapply bool_decide_eq_true_1, H. by apply list_elem_of_In.
Qed.

Lemma pair_store_closed : closed pair_store.
Proof. apply closedb_closed. vm_compute. reflexivity. Qed.

(** [gather] returns the accumulator followed by what each child returned,
    in the order of the children. *)
Lemma gather_Ok {A : Type} (view : ref → outcome (list A)) (cs : list ref)
    (acc l : list A) :
  gather view cs acc = Ok l ↔
  ∃ subs, Forall2 (λ c sub, view c = Ok sub) cs subs ∧ l = acc ++ concat subs.
Proof.
  revert acc. induction cs as [|c cs IH]; intros acc; simpl.
  - split.
    + intros [= <-]. exists []. split; [constructor|]. by rewrite app_nil_r.
    + intros (subs & Hsubs & ->). inversion Hsubs. simpl. by rewrite app_nil_r.
  - split.
    + intros H. apply bind_Ok in H as (sub & Hsub & H).
      apply IH in H as (subs & Hsubs & ->).
      exists (sub :: subs). split; [by constructor|].
      simpl. by rewrite app_assoc.
    + intros (subs & Hsubs & ->). inversion Hsubs as [|? sub ? subs' Hc Hcs]; subst.
      rewrite Hc. simpl. apply IH. exists subs'. split; [done|].
      simpl. by rewrite app_assoc.
Qed.

(** What [indices] returns: [indices_self] followed by the children's
    full-subtree lists, in order; the lengths add up. *)
Lemma indices_Ok (d : nat) (h : heap) (self : ref) (l : list coord) :
  indices (S d) h self = Ok l →
  ∃ s subs, h !! self = Some s
    ∧ Forall2 (λ c sub, indices d h c = Ok sub) (children s) subs
    ∧ l = indices_self s ++ concat subs
    ∧ length l = (length (indices_self s) + sum_list (length <$> subs))%nat.
Proof.
  simpl. intros H. apply bind_Ok in H as (s & Hs & H).
  apply bind_Ok in H as (sub & Hsub & [= <-]).
  apply deref_Ok in Hs. apply gather_Ok in Hsub as (subs & Hsubs & ->).
  exists s, subs. repeat split; [done..|].
  rewrite length_app. f_equal. simpl. clear.
  induction subs as [|x subs IH]; simpl; [done|].
  by rewrite length_app, IH.
Qed.

(** In a closed store [indices] returns or runs out of stack. *)
Lemma indices_closed (depth : nat) (h : heap) (self : ref) :
  closed h → is_Some (h !! self) →
  returned (indices depth h self) = true
  ∨ indices depth h self = Raise RecursionError.
Proof.
  intros Hcl. revert self.
  induction depth as [|d IH]; intros self [s Hs]; simpl; [by right|].
  rewrite (deref_Some _ _ _ Hs). simpl.
  assert (∀ cs acc, (∀ c, c ∈ cs → is_Some (h !! c)) →
            returned (gather (indices d h) cs acc) = true
            ∨ gather (indices d h) cs acc = Raise RecursionError) as Hg.
  { induction cs as [|c cs IHcs]; intros acc Hin; simpl; [by left|].
    destruct (IH c) as [Hok | ->]; [apply Hin; left | | by right].
    apply returned_Ok in Hok as [sub ->]. simpl.
    apply IHcs. intros c' Hc'. apply Hin. by right. }
  destruct (Hg (children s) []) as [Hok | ->]; [| |by right].
  - intros c Hc. by apply (Hcl self s c).
  - apply returned_Ok in Hok as [sub ->]. by left.
Qed.

(** [values] calls itself on the same object before it can return: no
    recursion limit is enough. *)
Lemma values_not_returned (depth : nat) (h : heap) (self : ref) :
  returned (values depth h self) = false.
Proof.
  revert self. induction depth as [|d IH]; intros self; simpl; [done|].
  unfold deref. destruct (h !! self) as [s|]; simpl; [|done].
  destruct (children s) as [|c cs]; simpl.
  - by apply bind_not_returned.
  - apply bind_not_returned. by apply bind_not_returned.
Qed.

Lemma values_closed (depth : nat) (h : heap) (self : ref) :
  closed h → is_Some (h !! self) →
  values depth h self = Raise RecursionError.
Proof.
  intros Hcl. revert self.
  induction depth as [|d IH]; intros self [s Hs]; simpl; [done|].
  rewrite (deref_Some _ _ _ Hs). simpl.
  destruct (children s) as [|c cs] eqn:Hcs; simpl.
  - by rewrite IH.
  - rewrite IH; [done|]. apply (Hcl self s c Hs). rewrite Hcs. by left.
Qed.

(** C1, the [values] half, on the branch [B] of [pair_store] and on its leaf
    [L1]: whatever the recursion limit, the query raises [RecursionError]
    where the specification has it return a list; and in no store does it return.
    [indices], the sibling property, does return on [B]. *)
Theorem values_never_returns (depth : nat) (h : heap) (self : ref) :
  returned (values depth h self) = false
  ∧ values depth pair_store 2 = Raise RecursionError
  ∧ values depth pair_store 0 = Raise RecursionError
  ∧ indices 2 pair_store 2 = Ok [[2; 2]; [0; 0]; [1; 1]].
Proof.
  split; [apply values_not_returned|].
  split; [|split].
  - by apply values_closed; [apply pair_store_closed|].
  - by apply values_closed; [apply pair_store_closed|].
  - vm_compute. reflexivity.
Qed.

(** ** Height, pixel count and peak *)

(** [height] reads [vmax] before anything else. *)
Lemma height_without_vmax (h : heap) (self : ref) (s : Structure) :
  h !! self = Some s → vmax s = None → height h self = Raise AttributeError.
Proof.
  intros Hs Hv. unfold height. rewrite (deref_Some _ _ _ Hs). simpl.
  rewrite Hv. by destruct (parent s).
Qed.

(** No object that the constructor has just built has a height. *)
Lemma height_after_init (self : ref) (px : pixels) (cs : list ref)
    (idx : option Z) (h h' : heap) :
  __init__ self px cs idx h = Ok h' → height h' self = Raise AttributeError.
Proof.
  intros H. apply init_Ok in H as (h1 & s & _ & -> & _ & _ & _ & _ & _ & Hv & _).
  apply (height_without_vmax _ _ s); [apply lookup_insert_eq | done].
Qed.

(** C7 on [pair_store]: the specification gives the leaf [L1] the height
    [5 - 2] and
    the root [B] the height [2 - 2]; both queries raise [AttributeError],
    because [__init__] stores the range under [_vmin_sel]/[_vmin]/[_vmax]
    and [height] reads [vmin]/[vmax]. *)
Theorem height_raises_AttributeError :
  height pair_store 0 = Raise AttributeError
  ∧ height pair_store 2 = Raise AttributeError
  ∧ (_vmax <$> pair_store !! 0%nat) = Some 5
  ∧ (merge_level <$> pair_store !! 2%nat) = Some (Some (Scalar 2)).
Proof. by vm_compute. Qed.

(** The own pixel count reads an attribute that nothing defines. *)
Lemma get_npix_own (depth : nat) (h : heap) (self : ref) :
  is_Some (h !! self) → get_npix depth self false h = Raise AttributeError.
Proof. intros [s Hs]. unfold get_npix. by rewrite (deref_Some _ _ _ Hs). Qed.

(** The subtree pixel count goes through [values] to fill its cache. *)
Lemma get_npix_subtree (depth : nat) (h : heap) (self : ref) (s : Structure) :
  closed h → h !! self = Some s → _npix_total s = None →
  get_npix depth self true h = Raise RecursionError.
Proof.
  intros Hcl Hs Hn. unfold get_npix. rewrite (deref_Some _ _ _ Hs). simpl.
  rewrite Hn. by rewrite values_closed.
Qed.

(** C5 on the root [B] of [pair_store], whose tree was fed 3 pixels: the own
    count raises [AttributeError] and the subtree count raises
    [RecursionError], whatever the recursion limit. *)
Theorem get_npix_raises (depth : nat) :
  get_npix depth 2 false pair_store = Raise AttributeError
  ∧ get_npix depth 2 true pair_store = Raise RecursionError.
Proof.
  split.
  - by apply get_npix_own.
  - by eapply get_npix_subtree; [apply pair_store_closed| |].
Qed.

(** Filling the peak cache goes through [values]. *)
Lemma get_peak_self_closed (depth : nat) (h : heap) (self : ref)
    (s : Structure) :
  closed h → h !! self = Some s → _peak s = None →
  get_peak_self depth self h = Raise RecursionError.
Proof.
  intros Hcl Hs Hp. unfold get_peak_self.
  rewrite (deref_Some _ _ _ Hs). simpl. rewrite Hp.
  destruct (indices_closed depth h self Hcl) as [Hok | ->]; [by eexists| |done].
  apply returned_Ok in Hok as [l ->]. simpl.
  by rewrite values_closed.
Qed.

Lemma get_peak_closed (depth : nat) (h : heap) (self : ref) (s : Structure)
    (subtree : bool) :
  closed h → h !! self = Some s → _peak s = None →
  get_peak depth self subtree h = Raise RecursionError.
Proof.
  intros Hcl Hs Hp. unfold get_peak.
  by rewrite (get_peak_self_closed _ _ _ s).
Qed.

(** C6 on [pair_store]: the specification has [B.get_peak(subtree=true)] return
    [((0,0), 5)]; the local and the subtree query both raise
    [RecursionError], whatever the recursion limit. *)
Theorem get_peak_raises (depth : nat) :
  get_peak depth 2 true pair_store = Raise RecursionError
  ∧ get_peak depth 2 false pair_store = Raise RecursionError
  ∧ get_peak depth 0 false pair_store = Raise RecursionError.
Proof.
  pose proof pair_store_closed as Hcl.
  split; [|split]; by eapply get_peak_closed.
Qed.

(** ** Parent links *)

Section parent_links.

Context (h : heap).

Lemma climbs_in_store (x a : ref) (n : nat) :
  climbs h x n a → is_Some (h !! x) ∧ is_Some (h !! a).
Proof. induction 1 as [x s Hs | x s p n a Hs Hp _ [_ IH]]; eauto. Qed.

Lemma climbs_trans (x y z : ref) (i j : nat) :
  climbs h x i y → climbs h y j z → climbs h x (i + j) z.
Proof.
  induction 1 as [x s Hs | x s p n a Hs Hp _ IH]; intros Hz; [done|].
  simpl. eapply climbs_up; eauto.
Qed.

Lemma climbs_S (x a : ref) (n : nat) :
  climbs h x (S n) a →
  ∃ s p, h !! x = Some s ∧ parent s = Some p ∧ climbs h p n a.
Proof. inversion 1; subst; eauto. Qed.

Lemma climbs_from_root (r a : ref) (n : nat) :
  is_root h r → climbs h r n a → n = 0%nat ∧ a = r.
Proof.
  intros (s & Hs & Hp). inversion 1 as [|? s' p ? ? Hs' Hp']; subst; [done|].
  congruence.
Qed.

(** A path to a root goes through every node reached from its start. *)
Lemma climbs_split (x b r : ref) (i k : nat) :
  climbs h x i b → climbs h x k r → is_root h r →
  ∃ j, k = (i + j)%nat ∧ climbs h b j r.
Proof.
  intros Hb. revert k.
  induction Hb as [x s Hs | x s p n a Hs Hp _ IH]; intros k Hr Hroot.
  - by exists k.
  - inversion Hr as [? s' Hs' | ? s' p' k' ? Hs' Hp' Hr']; subst.
    + destruct Hroot as (s'' & Hs'' & Hp''). congruence.
    + assert (p' = p) as -> by congruence.
      destruct (IH _ Hr' Hroot) as (j & -> & Hj). by exists j.
Qed.

(** The root above a node and the distance to it are unique. *)
Lemma climbs_root_unique (x r r' : ref) (n m : nat) :
  climbs h x n r → is_root h r → climbs h x m r' → is_root h r' →
  n = m ∧ r = r'.
Proof.
  intros Hn Hr Hm Hr'.
  destruct (climbs_split _ _ _ _ _ Hm Hn Hr) as (j & -> & Hj).
  destruct (climbs_from_root _ _ _ Hr' Hj) as [-> ->]. split; [lia|done].
Qed.

End parent_links.

Lemma same_links_sym (h h' : heap) : same_links h h' → same_links h' h.
Proof. intros H y. by rewrite H. Qed.

Lemma same_links_trans (h1 h2 h3 : heap) :
  same_links h1 h2 → same_links h2 h3 → same_links h1 h3.
Proof. intros H1 H2 y. by rewrite H1. Qed.

Lemma same_links_insert (h : heap) (x : ref) (s s' : Structure) :
  h !! x = Some s → parent s' = parent s → same_links h (<[x := s']> h).
Proof.
  intros Hs Hp y. destruct (decide (x = y)) as [<-|Hne].
  - rewrite lookup_insert_eq, Hs. simpl. by rewrite Hp.
  - by rewrite lookup_insert_ne.
Qed.

Lemma same_links_lookup (h h' : heap) (y : ref) (s : Structure) :
  same_links h h' → h !! y = Some s →
  ∃ s', h' !! y = Some s' ∧ parent s' = parent s.
Proof.
  intros H Hs. specialize (H y). rewrite Hs in H. simpl in H.
  destruct (h' !! y) as [s'|]; simpl in H; [|done].
  exists s'. split; [done|]. congruence.
Qed.

Lemma climbs_same_links (h h' : heap) (x a : ref) (n : nat) :
  same_links h h' → climbs h x n a → climbs h' x n a.
Proof.
  intros Hl. induction 1 as [x s Hs | x s p n a Hs Hp _ IH].
  - destruct (same_links_lookup _ _ _ _ Hl Hs) as (s' & Hs' & _).
    by eapply climbs_here.
  - destruct (same_links_lookup _ _ _ _ Hl Hs) as (s' & Hs' & Hp').
    eapply climbs_up; [done| |done]. congruence.
Qed.

Lemma is_root_same_links (h h' : heap) (r : ref) :
  same_links h h' → is_root h r → is_root h' r.
Proof.
  intros Hl (s & Hs & Hp).
  destruct (same_links_lookup _ _ _ _ Hl Hs) as (s' & Hs' & Hp').
  exists s'. split; [done|]. congruence.
Qed.

Lemma forest_same_links (h h' : heap) :
  same_links h h' → forest h → forest h'.
Proof.
  intros Hl Hf x s' Hs'.
  destruct (same_links_lookup _ _ _ _ (same_links_sym _ _ Hl) Hs')
    as (s & Hs & _).
  destruct (Hf x s Hs) as (n & r & Hc & Hr).
  exists n, r. split; [by eapply climbs_same_links | by eapply is_root_same_links].
Qed.

(** ** Ancestor *)

Lemma with_ancestor_same (s : Structure) (a : option ref) :
  _ancestor s = a → with_ancestor a s = s.
Proof. intros <-. by destruct s. Qed.

(** Writing a proper ancestor into a cache keeps the caches sound. *)
Lemma ancestors_cached_insert (h : heap) (x a : ref) (s : Structure)
    (m : nat) :
  ancestors_cached h → h !! x = Some s → climbs h x (S m) a →
  ancestors_cached (<[x := with_ancestor (Some a) s]> h).
Proof.
  intros Hc Hs Ha y sy ay Hy Hay.
  assert (same_links h (<[x := with_ancestor (Some a) s]> h)) as Hl
    by (by apply (same_links_insert _ _ s)).
  destruct (decide (x = y)) as [<-|Hne].
  - rewrite lookup_insert_eq in Hy. injection Hy as <-. simpl in Hay.
    injection Hay as <-. exists m. by eapply climbs_same_links.
  - rewrite lookup_insert_ne in Hy by done.
    destruct (Hc y sy ay Hy Hay) as [n Hn].
    exists n. by eapply climbs_same_links.
Qed.

(** The loop of [ancestor] ends within as many turns as there are links
    between the cached pointer and the root, and leaves the root in the
    cache of [self]; no other object is written. *)
Lemma ancestor_loop_spec (k : nat) :
  ∀ (fuel : nat) (h : heap) (self a r : ref) (s : Structure),
    ancestors_cached h → h !! self = Some s → _ancestor s = Some a →
    climbs h a k r → is_root h r → (k < fuel)%nat →
    ancestor_loop fuel self h = Ok (<[self := with_ancestor (Some r) s]> h).
Proof.
  induction k as [k IH] using lt_wf_ind.
  intros fuel h self a r s Hc Hs Ha Hk Hr Hfuel.
  destruct fuel as [|fuel]; [lia|]. simpl.
  rewrite (deref_Some _ _ _ Hs). simpl. rewrite Ha. simpl.
  destruct (climbs_in_store _ _ _ _ Hk) as [[sa Hsa] _].
  rewrite (deref_Some _ _ _ Hsa). simpl.
  destruct (parent sa) as [p|] eqn:Hp.
  - (* one more turn *)
    destruct (Hc self s a Hs Ha) as [m Hm].
    assert (∃ j i, climbs h self (S i) (match _ancestor sa with
                                        | Some a' => a' | None => p end)
                   ∧ climbs h (match _ancestor sa with
                               | Some a' => a' | None => p end) j r
                   ∧ (j < k)%nat) as (j & i & Hnext & Hj & Hlt).
    { destruct (_ancestor sa) as [a'|] eqn:Ha'.
      - destruct (Hc a sa a' Hsa Ha') as [n Hn].
        destruct (climbs_split _ _ _ _ _ _ Hn Hk Hr) as (j & -> & Hj).
        exists j, (m + S n)%nat. split; [|split; [done|lia]].
        replace (S (m + S n)) with (S m + S n)%nat by lia.
        by eapply climbs_trans.
      - assert (climbs h a 1 p) as Hap.
        { eapply climbs_up; [done..|].
          destruct k as [|k']; [parented Hk Hr|].
          apply climbs_S in Hk as (sa' & p' & Hsa' & Hp' & Hk).
          assert (p' = p) as -> by congruence.
          destruct (climbs_in_store _ _ _ _ Hk) as [[sp Hsp] _].
          by eapply climbs_here. }
        destruct (climbs_split _ _ _ _ _ _ Hap Hk Hr) as (j & -> & Hj).
        exists j, (m + 1)%nat. split; [|split; [done|lia]].
        replace (S (m + 1)) with (S m + 1)%nat by lia.
        by eapply climbs_trans. }
    set (next := match _ancestor sa with Some a' => a' | None => p end) in *.
    rewrite (setattr_Some _ _ _ _ Hs). simpl.
    assert (same_links h (<[self := with_ancestor (Some next) s]> h)) as Hl
      by (by apply (same_links_insert _ _ s)).
    rewrite (IH j Hlt fuel _ self next r (with_ancestor (Some next) s)).
    + by rewrite insert_insert_eq.
    + by eapply ancestors_cached_insert.
    + apply lookup_insert_eq.
    + done.
    + by eapply climbs_same_links.
    + by eapply is_root_same_links.
    + lia.
  - (* the cached pointer is a root: the loop ends *)
    assert (is_root h a) as Hra by (by exists sa).
    destruct (climbs_from_root _ _ _ _ Hra Hk) as [-> ->].
    f_equal. symmetry. apply insert_id.
    by rewrite with_ancestor_same.
Qed.

(** [ancestor] returns the root above the node, within [n] turns of its
    loop when the root is [n] links away. *)
Lemma ancestor_spec (fuel : nat) (h : heap) (x r : ref) (n : nat) :
  ancestors_cached h → climbs h x n r → is_root h r → (n ≤ fuel)%nat →
  ancestor fuel x h = Ok (Some r, ancestor_cached h x r).
Proof.
  intros Hc Hn Hr Hfuel. unfold ancestor, ancestor_cached.
  destruct (climbs_in_store _ _ _ _ Hn) as [[s Hs] _].
  rewrite (deref_Some _ _ _ Hs), Hs. simpl.
  destruct (parent s) as [p|] eqn:Hp.
  - destruct n as [|n]; [parented Hn Hr|].
    pose proof Hn as Hn'.
    apply climbs_S in Hn' as (s' & p' & Hs' & Hp' & Hpn).
    assert (s' = s) as -> by congruence. assert (p' = p) as -> by congruence.
    destruct (_ancestor s) as [a|] eqn:Ha; simpl.
    + destruct (Hc x s a Hs Ha) as [m Hm].
      destruct (climbs_split _ _ _ _ _ _ Hm Hn Hr) as (j & Hj & Hjr).
      rewrite (ancestor_loop_spec j fuel h x a r s); try done; [|lia].
      simpl. unfold deref. by rewrite lookup_insert_eq.
    + rewrite (setattr_Some _ _ _ _ Hs). simpl.
      assert (same_links h (<[x := with_ancestor (Some p) s]> h)) as Hl
        by (by apply (same_links_insert _ _ s)).
      assert (climbs h x 1 p) as Hxp.
      { eapply climbs_up; [done..|].
        destruct (climbs_in_store _ _ _ _ Hpn) as [[sp Hsp] _].
        by eapply climbs_here. }
      rewrite (ancestor_loop_spec n fuel _ x p r (with_ancestor (Some p) s)).
      * simpl. rewrite insert_insert_eq. unfold deref.
        by rewrite lookup_insert_eq.
      * by eapply ancestors_cached_insert.
      * apply lookup_insert_eq.
      * done.
      * by eapply climbs_same_links.
      * by eapply is_root_same_links.
      * lia.
  - assert (is_root h x) as Hrx by (by exists s).
    by destruct (climbs_from_root _ _ _ _ Hrx Hn) as [-> ->].
Qed.

Lemma ancestor_cached_other (h : heap) (x r y : ref) :
  y ≠ x → ancestor_cached h x r !! y = h !! y.
Proof.
  intros Hne. unfold ancestor_cached.
  destruct (h !! x) as [s|]; [|done].
  destruct (parent s); [|done]. by rewrite lookup_insert_ne.
Qed.

Lemma ancestor_cached_self (h : heap) (x r : ref) (s : Structure) :
  h !! x = Some s →
  ancestor_cached h x r !! x =
  Some (match parent s with Some _ => with_ancestor (Some r) s | None => s end).
Proof.
  intros Hs. unfold ancestor_cached. rewrite Hs.
  destruct (parent s); [|done]. by rewrite lookup_insert_eq.
Qed.

Lemma ancestor_cached_same_links (h : heap) (x r : ref) :
  same_links h (ancestor_cached h x r).
Proof.
  unfold ancestor_cached. destruct (h !! x) as [s|] eqn:Hs; [|done].
  destruct (parent s); [|done]. by apply (same_links_insert _ _ s).
Qed.

(** C3.  In a store whose parent links form a forest (and whose ancestor
    caches are sound, as they are in every store the class produces),
    [ancestor] on any node returns, once its loop is given enough turns, the
    node [r] that its parent links lead to, which has no parent in the store
    the call started from; the call leaves every parent link as it was, so
    [r] has no parent afterwards either; queried in the store left by the
    first call, [ancestor] on [r] returns [r] again and changes nothing; and
    on a node with no parent it returns the node itself. *)
Theorem ancestor_idempotent (h : heap) (x : ref) (s : Structure) :
  forest h → ancestors_cached h → h !! x = Some s →
  ∃ (r : ref) (n : nat) (h' : heap),
    climbs h x n r
    ∧ is_root h r
    ∧ (∀ fuel, (n ≤ fuel)%nat → ancestor fuel x h = Ok (Some r, h'))
    ∧ same_links h h'
    ∧ is_root h' r
    ∧ (∀ fuel, ancestor fuel r h' = Ok (Some r, h'))
    ∧ (parent s = None →
       r = x ∧ ∀ fuel, ancestor fuel x h = Ok (Some x, h)).
Proof.
  intros Hf Hc Hs. destruct (Hf x s Hs) as (n & r & Hn & Hr).
  exists r, n, (ancestor_cached h x r).
  assert (is_root (ancestor_cached h x r) r) as Hr'
    by (eapply is_root_same_links; [apply ancestor_cached_same_links|done]).
  split; [done|]. split; [done|].
  split; [|split; [apply ancestor_cached_same_links|split; [done|split]]].
  - intros fuel Hfuel. by apply (ancestor_spec fuel h x r n).
  - intros fuel. destruct Hr' as (sr & Hsr & Hpr).
    unfold ancestor. rewrite (deref_Some _ _ _ Hsr). simpl. by rewrite Hpr.
  - intros Hp. assert (is_root h x) as Hrx by (by exists s).
    destruct (climbs_from_root _ _ _ _ Hrx Hn) as [-> ->].
    split; [done|]. intros fuel. unfold ancestor.
    rewrite (deref_Some _ _ _ Hs). simpl. by rewrite Hp.
Qed.

(** ** Checks on given stores *)

Lemma root_of_climbs (fuel : nat) (h : heap) (x r : ref) (n : nat) :
  root_of fuel h x = Some (n, r) → climbs h x n r ∧ is_root h r.
Proof.
  revert x n. induction fuel as [|fuel IH]; intros x n; simpl; [done|].
  destruct (h !! x) as [s|] eqn:Hs; [|done].
  destruct (parent s) as [p|] eqn:Hp.
  - destruct (root_of fuel h p) as [[m r']|] eqn:Hroot; [|done].
    intros [= <- <-]. destruct (IH _ _ Hroot) as [Hc Hr].
    split; [by eapply climbs_up|done].
  - intros [= <- <-]. split; [by eapply climbs_here | by exists s].
Qed.

Lemma forestb_forest (h : heap) : forestb h = true → forest h.
Proof.
  intros Hb x s Hs.
  pose proof (all_objects_spec _ _ _ _ Hb Hs) as H. simpl in H.
  apply bool_decide_eq_true_1 in H as [[n r] H].
  exists n, r. by eapply root_of_climbs.
Qed.

Lemma no_ancestor_cachedb_sound (h : heap) :
  no_ancestor_cachedb h = true → ancestors_cached h.
Proof.
  intros Hb x s a Hs Ha.
  pose proof (all_objects_spec _ _ _ _ Hb Hs) as H. simpl in H.
  apply bool_decide_eq_true_1 in H. congruence.
Qed.

Lemma levels_cachedb_sound (h : heap) :
  levels_cachedb h = true → levels_cached h.
Proof.
  intros Hb x s l n r Hs Hl Hn Hr.
  pose proof (all_objects_spec _ _ _ _ Hb Hs) as H. simpl in H.
  rewrite Hl in H.
  destruct (root_of (size h) h x) as [[m r']|] eqn:Hroot; [|done].
  apply bool_decide_eq_true_1 in H as ->.
  destruct (root_of_climbs _ _ _ _ _ Hroot) as [Hm Hr'].
  by destruct (climbs_root_unique _ _ _ _ _ _ Hn Hr Hm Hr') as [-> _].
Qed.

Lemma trunk_levelledb_sound (h : heap) :
  trunk_levelledb h = true → trunk_levelled h.
Proof.
  intros Hb r s Hs Hp.
  pose proof (all_objects_spec _ _ _ _ Hb Hs) as H. simpl in H.
  rewrite Hp in H. by apply bool_decide_eq_true_1 in H.
Qed.

(** [ancestor_idempotent] on the node [C] of the fresh chain. *)
Lemma ancestor_idempotent_witness :
  ∃ (r : ref) (n : nat) (h' : heap),
    climbs chain_store 0 n r
    ∧ is_root chain_store r
    ∧ (∀ fuel, (n ≤ fuel)%nat → ancestor fuel 0 chain_store = Ok (Some r, h'))
    ∧ same_links chain_store h'
    ∧ is_root h' r
    ∧ (∀ fuel, ancestor fuel r h' = Ok (Some r, h')).
Proof.
  destruct (chain_store !! 0%nat) as [s|] eqn:Hs; [|by vm_compute in Hs].
  destruct (ancestor_idempotent chain_store 0 s)
    as (r & n & h' & H0 & H1 & H2 & H3 & H4 & H5 & _).
  - apply forestb_forest. vm_compute. reflexivity.
  - apply no_ancestor_cachedb_sound. vm_compute. reflexivity.
  - exact Hs.
  - exists r, n, h'. auto 10.
Defined.

(** C9, as the code has it.  A query of [ancestor] that finds the root [r]
    writes one pointer: the cache of the queried node, which ends as [r]
    (and only if the node has a parent).  Every other object, the nodes
    passed through included, is left as it was. *)
Theorem ancestor_writes_self_only (h : heap) (x r : ref) (s : Structure)
    (n fuel : nat) :
  ancestors_cached h → h !! x = Some s → climbs h x n r → is_root h r →
  (n ≤ fuel)%nat →
  ∃ h', ancestor fuel x h = Ok (Some r, h')
    ∧ (∀ y, y ≠ x → h' !! y = h !! y)
    ∧ h' !! x = Some (match parent s with
                      | Some _ => with_ancestor (Some r) s
                      | None => s
                      end).
Proof.
  intros Hc Hs Hn Hr Hfuel. exists (ancestor_cached h x r).
  split; [by apply (ancestor_spec fuel h x r n)|].
  split; [intros y Hy; by apply ancestor_cached_other|].
  by apply ancestor_cached_self.
Qed.

(** [ancestor_writes_self_only] on the node [C] of the fresh chain, whose
    root is three links up. *)
Lemma ancestor_writes_self_only_witness :
  ∃ h', ancestor 3 0 chain_store = Ok (Some 3%nat, h')
    ∧ (∀ y, y ≠ 0%nat → h' !! y = chain_store !! y).
Proof.
  destruct (chain_store !! 0%nat) as [s|] eqn:Hs; [|by vm_compute in Hs].
  destruct (root_of_climbs 4 chain_store 0 3 3) as [Hn Hr];
    [vm_compute; reflexivity|].
  destruct (ancestor_writes_self_only chain_store 0 3 s 3 3)
    as (h' & H1 & H2 & _).
  - apply no_ancestor_cachedb_sound. vm_compute. reflexivity.
  - exact Hs.
  - exact Hn.
  - exact Hr.
  - lia.
  - exists h'. auto.
Defined.

(** C9 fails as stated: on the chain root → A → B → C, the first query from
    [C] walks through [B] and [A] and returns the root, and afterwards only
    [C] holds a cached pointer; [B] and [A] still hold [None]. *)
Lemma ancestor_compression_counterexample :
  ∃ h', ancestor 3 0 chain_store = Ok (Some 3%nat, h')
    ∧ cached_ancestor h' 0 = Some (Some 3%nat)
    ∧ cached_ancestor h' 1 = Some None
    ∧ cached_ancestor h' 2 = Some None
    ∧ h' !! 1%nat = chain_store !! 1%nat
    ∧ h' !! 2%nat = chain_store !! 2%nat.
Proof. eexists. split; [vm_compute; reflexivity|]. by vm_compute. Qed.

(** ** Level *)

Lemma with_level_same (s : Structure) (l : option Z) :
  _level s = l → with_level l s = s.
Proof. intros <-. by destruct s. Qed.

(** Writing the right level into a cache keeps the caches sound. *)
Lemma levels_cached_insert (h : heap) (x : ref) (s : Structure) (l : Z) :
  levels_cached h → h !! x = Some s →
  (∀ n r, climbs h x n r → is_root h r → l = Z.of_nat n) →
  levels_cached (<[x := with_level (Some l) s]> h).
Proof.
  intros Hc Hs Hl y sy ly n r Hy Hly Hn Hr.
  assert (same_links (<[x := with_level (Some l) s]> h) h) as Hlinks
    by (by apply same_links_sym, (same_links_insert _ _ s)).
  apply (climbs_same_links _ _ _ _ _ Hlinks) in Hn.
  apply (is_root_same_links _ _ _ Hlinks) in Hr.
  destruct (decide (x = y)) as [<-|Hne].
  - rewrite lookup_insert_eq in Hy. injection Hy as <-. simpl in Hly.
    injection Hly as <-. by eapply Hl.
  - rewrite lookup_insert_ne in Hy by done. by eapply Hc.
Qed.

Lemma trunk_levelled_insert (h : heap) (x : ref) (s : Structure) (l : Z) :
  trunk_levelled h → h !! x = Some s → (parent s = None → l = 0) →
  trunk_levelled (<[x := with_level (Some l) s]> h).
Proof.
  intros Ht Hs Hl y sy Hy Hp.
  destruct (decide (x = y)) as [<-|Hne].
  - rewrite lookup_insert_eq in Hy. injection Hy as <-. simpl in *.
    by rewrite Hl.
  - rewrite lookup_insert_ne in Hy by done. by eapply Ht.
Qed.

Section level_loop.

(** The loop of [level] reads the store and writes nothing: within it the
    store and its invariants are fixed. *)
Context (h : heap) (Hc : levels_cached h) (Ht : trunk_levelled h).

(** The loop of [level] stops at the first node with a cached level, at most
    at the root, which has one when the trunk is levelled; the level found
    plus the links climbed is the level of the node the loop started from
    plus the initial [diff]. *)
Lemma level_loop_spec (k : nat) :
  ∀ (fuel : nat) (o r : ref) (diff : Z),
    climbs h o k r → is_root h r → (k < fuel)%nat →
    ∃ (o' : ref) (so' : Structure) (l : Z) (j : nat),
      level_loop fuel h (Some o) diff = Ok (o', diff + Z.of_nat j)
      ∧ h !! o' = Some so' ∧ _level so' = Some l
      ∧ l + Z.of_nat j = Z.of_nat k.
Proof.
  induction k as [|k IH]; intros fuel o r diff Hk Hr Hfuel;
    (destruct fuel as [|fuel]; [lia|]); simpl.
  - inversion Hk as [? s Hs|]; subst.
    rewrite (deref_Some _ _ _ Hs). simpl.
    destruct Hr as (s' & Hs' & Hp). assert (s' = s) as -> by congruence.
    rewrite (Ht r s Hs Hp).
    exists r, s, 0, 0%nat. rewrite (Ht r s Hs Hp).
    repeat split; [f_equal; f_equal; lia | done].
  - pose proof Hk as Hk'.
    apply climbs_S in Hk' as (s & p & Hs & Hp & Hpk).
    rewrite (deref_Some _ _ _ Hs). simpl.
    destruct (_level s) as [l|] eqn:Hl.
    + exists o, s, l, 0%nat. rewrite Hl.
      repeat split; [f_equal; f_equal; lia | done |].
      rewrite (Hc o s l (S k) r Hs Hl Hk Hr). lia.
    + rewrite Hp.
      destruct (IH fuel p r (diff + 1) Hpk Hr)
        as (o' & so' & l & j & Hloop & Hso' & Hl' & Hj); [lia|].
      exists o', so', l, (S j). rewrite Hloop.
      repeat split; [f_equal; f_equal; lia | done | done | lia].
Qed.

End level_loop.

(** [level] returns the number of links up to the root, provided the trunk
    is levelled or the node is itself a root, and leaves
    [level_backfilled]. *)
Lemma level_spec (fuel : nat) (h : heap) (x r : ref) (n : nat) :
  levels_cached h → trunk_levelled h ∨ is_root h x →
  climbs h x n r → is_root h r → (n ≤ fuel)%nat →
  level fuel x h = Ok (Some (Z.of_nat n), level_backfilled h x (Z.of_nat n)).
Proof.
  intros Hc Ht Hn Hr Hfuel. unfold level, level_backfilled.
  destruct (climbs_in_store _ _ _ _ Hn) as [[s Hs] _].
  rewrite (deref_Some _ _ _ Hs), Hs. simpl.
  destruct (_level s) as [l|] eqn:Hl; simpl.
  { rewrite (deref_Some _ _ _ Hs). simpl. rewrite Hl.
    by rewrite (Hc x s l n r Hs Hl Hn Hr). }
  destruct (parent s) as [p|] eqn:Hp.
  - destruct Ht as [Ht | (s' & Hs' & Hp')]; [|congruence].
    destruct n as [|n]; [parented Hn Hr|].
    pose proof Hn as Hn'.
    apply climbs_S in Hn' as (s' & p' & Hs' & Hp' & Hpn).
    assert (s' = s) as -> by congruence. assert (p' = p) as -> by congruence.
    destruct (climbs_in_store _ _ _ _ Hpn) as [[ps Hps] _].
    rewrite (deref_Some _ _ _ Hps), Hps. simpl.
    assert (p ≠ x) as Hpx.
    { intros ->.
      destruct (climbs_root_unique _ _ _ _ _ _ Hn Hr Hpn Hr) as [? _]. lia. }
    destruct (_level ps) as [pl|] eqn:Hpl.
    + rewrite (Hc p ps pl n r Hps Hpl Hpn Hr).
      rewrite (setattr_Some _ _ _ _ Hs). simpl.
      unfold deref. rewrite lookup_insert_eq. simpl.
      replace (Z.of_nat n + 1) with (Z.of_nat (S n)) by lia. done.
    + destruct (level_loop_spec h Hc Ht n fuel p r 1 Hpn Hr)
        as (o' & so' & l & j & Hloop & Hso' & Hl' & Hj); [lia|].
      rewrite Hloop. simpl. rewrite (deref_Some _ _ _ Hso'). simpl.
      rewrite Hl'. simpl.
      replace (l + (1 + Z.of_nat j)) with (Z.of_nat (S n)) by lia.
      rewrite (setattr_Some _ _ _ _ Hs). simpl.
      unfold deref at 1. rewrite lookup_insert_eq. simpl. rewrite Hp. simpl.
      unfold setattr, deref. rewrite lookup_insert_ne by done.
      rewrite Hps. simpl.
      rewrite lookup_insert_ne by done. rewrite lookup_insert_eq. simpl.
      replace (Z.of_nat (S n) + -1) with (Z.of_nat (S n) - 1) by lia. done.
  - assert (is_root h x) as Hrx by (by exists s).
    destruct (climbs_from_root _ _ _ _ Hrx Hn) as [-> ->].
    rewrite (setattr_Some _ _ _ _ Hs). simpl.
    unfold deref. by rewrite lookup_insert_eq.
Qed.

Lemma level_backfilled_same_links (h : heap) (x : ref) (n : Z) :
  same_links h (level_backfilled h x n).
Proof.
  unfold level_backfilled. destruct (h !! x) as [s|] eqn:Hs; [|done].
  destruct (_level s); [done|].
  assert (same_links h (<[x := with_level (Some n) s]> h)) as Hx
    by (by apply (same_links_insert _ _ s)).
  destruct (parent s) as [p|]; [|done].
  destruct (h !! p) as [ps|] eqn:Hps; [|done].
  destruct (_level ps); [done|].
  eapply same_links_trans; [exact Hx|].
  destruct (decide (p = x)) as [->|Hne].
  - assert (ps = s) as -> by congruence.
    by apply (same_links_insert _ _ (with_level (Some n) s));
      [apply lookup_insert_eq|].
  - by apply (same_links_insert _ _ ps); [rewrite lookup_insert_ne|].
Qed.

Lemma level_backfilled_self (h : heap) (x r : ref) (s : Structure) (n : nat) :
  levels_cached h → h !! x = Some s → climbs h x n r → is_root h r →
  level_backfilled h x (Z.of_nat n) !! x
  = Some (with_level (Some (Z.of_nat n)) s).
Proof.
  intros Hc Hs Hn Hr. unfold level_backfilled. rewrite Hs.
  destruct (_level s) as [l|] eqn:Hl.
  { rewrite Hs, with_level_same; [done|].
    by rewrite Hl, (Hc x s l n r Hs Hl Hn Hr). }
  destruct (parent s) as [p|] eqn:Hp; [|by rewrite lookup_insert_eq].
  destruct n as [|n]; [parented Hn Hr|].
  pose proof Hn as Hn'.
  apply climbs_S in Hn' as (s' & p' & Hs' & Hp' & Hpn).
  assert (p' = p) as -> by congruence.
  destruct (climbs_in_store _ _ _ _ Hpn) as [[ps Hps] _]. rewrite Hps.
  destruct (_level ps); [by rewrite lookup_insert_eq|].
  assert (p ≠ x) as Hpx.
  { intros ->.
    destruct (climbs_root_unique _ _ _ _ _ _ Hn Hr Hpn Hr) as [? _]. lia. }
  rewrite lookup_insert_ne by done. by rewrite lookup_insert_eq.
Qed.

Lemma level_backfilled_parent (h : heap) (x p r : ref) (s : Structure)
    (n : nat) :
  levels_cached h → h !! x = Some s → parent s = Some p → _level s = None →
  climbs h x n r → is_root h r →
  ∃ ps, h !! p = Some ps
    ∧ level_backfilled h x (Z.of_nat n) !! p
      = Some (with_level (Some (Z.of_nat n - 1)) ps).
Proof.
  intros Hc Hs Hp Hl Hn Hr. unfold level_backfilled. rewrite Hs, Hl, Hp.
  destruct n as [|n]; [parented Hn Hr|].
  pose proof Hn as Hn'.
  apply climbs_S in Hn' as (s' & p' & Hs' & Hp' & Hpn).
  assert (p' = p) as -> by congruence.
  destruct (climbs_in_store _ _ _ _ Hpn) as [[ps Hps] _].
  exists ps. split; [done|]. rewrite Hps.
  assert (p ≠ x) as Hpx.
  { intros ->.
    destruct (climbs_root_unique _ _ _ _ _ _ Hn Hr Hpn Hr) as [? _]. lia. }
  destruct (_level ps) as [pl|] eqn:Hpl.
  - rewrite lookup_insert_ne by done. rewrite Hps, with_level_same; [done|].
    rewrite Hpl, (Hc p ps pl n r Hps Hpl Hpn Hr). f_equal. lia.
  - by rewrite lookup_insert_eq.
Qed.

Lemma level_backfilled_other (h : heap) (x y : ref) (s : Structure) (n : Z) :
  h !! x = Some s → y ≠ x → parent s ≠ Some y →
  level_backfilled h x n !! y = h !! y.
Proof.
  intros Hs Hy Hp. unfold level_backfilled. rewrite Hs.
  destruct (_level s); [done|].
  destruct (parent s) as [p|]; [|by rewrite lookup_insert_ne].
  destruct (h !! p) as [ps|]; [|done].
  destruct (_level ps); [by rewrite lookup_insert_ne|].
  rewrite lookup_insert_ne by congruence. by rewrite lookup_insert_ne.
Qed.

(** [level] keeps the stores it leaves within the invariants it needs. *)
Lemma level_keeps_levels (h : heap) (x r : ref) (n : nat) :
  levels_cached h → climbs h x n r → is_root h r →
  levels_cached (level_backfilled h x (Z.of_nat n)).
Proof.
  intros Hc Hn Hr. unfold level_backfilled.
  destruct (h !! x) as [s|] eqn:Hs; [|done].
  destruct (_level s) as [l|] eqn:Hl; [done|].
  assert (levels_cached (<[x := with_level (Some (Z.of_nat n)) s]> h)) as Hx.
  { apply levels_cached_insert; [done..|]. intros n' r' Hn' Hr'.
    by destruct (climbs_root_unique _ _ _ _ _ _ Hn Hr Hn' Hr') as [-> _]. }
  destruct (parent s) as [p|] eqn:Hp; [|done].
  destruct (h !! p) as [ps|] eqn:Hps; [|done].
  destruct (_level ps); [done|].
  destruct n as [|n]; [parented Hn Hr|].
  pose proof Hn as Hn'.
  apply climbs_S in Hn' as (s' & p' & Hs' & Hp' & Hpn).
  assert (p' = p) as -> by congruence.
  assert (p ≠ x) as Hpx.
  { intros ->.
    destruct (climbs_root_unique _ _ _ _ _ _ Hn Hr Hpn Hr) as [? _]. lia. }
  apply levels_cached_insert; [done|by rewrite lookup_insert_ne|].
  intros n' r' Hn' Hr'.
  assert (same_links (<[x := with_level (Some (Z.of_nat (S n))) s]> h) h)
    as Hlinks by (by apply same_links_sym, (same_links_insert _ _ s)).
  apply (climbs_same_links _ _ _ _ _ Hlinks) in Hn'.
  apply (is_root_same_links _ _ _ Hlinks) in Hr'.
  destruct (climbs_root_unique _ _ _ _ _ _ Hpn Hr Hn' Hr') as [-> _]. lia.
Qed.

Lemma level_keeps_trunk (h : heap) (x r : ref) (n : nat) :
  trunk_levelled h → climbs h x n r → is_root h r →
  trunk_levelled (level_backfilled h x (Z.of_nat n)).
Proof.
  intros Ht Hn Hr. unfold level_backfilled.
  destruct (h !! x) as [s|] eqn:Hs; [|done].
  destruct (_level s) as [l|] eqn:Hl; [done|].
  assert (trunk_levelled (<[x := with_level (Some (Z.of_nat n)) s]> h)) as Hx.
  { apply trunk_levelled_insert; [done..|]. intros Hp.
    rewrite (Ht x s Hs Hp) in Hl. done. }
  destruct (parent s) as [p|] eqn:Hp; [|done].
  destruct (h !! p) as [ps|] eqn:Hps; [|done].
  destruct (_level ps) eqn:Hpl; [done|].
  destruct (decide (p = x)) as [->|Hpx].
  - rewrite insert_insert_eq. apply trunk_levelled_insert; [done..|]. congruence.
  - apply trunk_levelled_insert; [done|by rewrite lookup_insert_ne|].
    intros Hpp. rewrite (Ht p ps Hps Hpp) in Hpl. done.
Qed.

(** C4, as the code has it.  With sound level caches, and the trunk
    levelled as the loop of [level] counts on (or the queried node itself a
    root), [level] returns the number of parent links up to the root: 0 for
    a root, the parent's level plus 1 otherwise.  It caches that level on
    the queried node and, when the node had no cached level, the level minus
    1 on its parent; every other object, the rest of the walked chain
    included, is left as it was. *)
Theorem level_backfills_parent_only (h : heap) (x r : ref) (s : Structure)
    (n fuel : nat) :
  levels_cached h → trunk_levelled h ∨ is_root h x →
  h !! x = Some s → climbs h x n r → is_root h r → (n ≤ fuel)%nat →
  ∃ h',
    level fuel x h = Ok (Some (Z.of_nat n), h')
    ∧ (parent s = None → n = 0%nat)
    ∧ (∀ p, parent s = Some p →
         ∃ h'', level fuel p h' = Ok (Some (Z.of_nat n - 1), h''))
    ∧ h' !! x = Some (with_level (Some (Z.of_nat n)) s)
    ∧ (∀ p, parent s = Some p → _level s = None →
         ∃ ps, h !! p = Some ps
           ∧ h' !! p = Some (with_level (Some (Z.of_nat n - 1)) ps))
    ∧ (∀ y, y ≠ x → parent s ≠ Some y → h' !! y = h !! y).
Proof.
  intros Hc Ht Hs Hn Hr Hfuel.
  exists (level_backfilled h x (Z.of_nat n)).
  split; [by apply (level_spec fuel h x r n)|].
  split; [|split; [|split; [|split]]].
  - intros Hp. assert (is_root h x) as Hrx by (by exists s).
    by destruct (climbs_from_root _ _ _ _ Hrx Hn) as [-> _].
  - intros p Hp.
    destruct Ht as [Ht | (s' & Hs' & Hp')]; [|congruence].
    destruct n as [|n]; [parented Hn Hr|].
    pose proof Hn as Hn'.
    apply climbs_S in Hn' as (s' & p' & Hs' & Hp' & Hpn).
    assert (p' = p) as -> by congruence.
    pose proof (level_backfilled_same_links h x (Z.of_nat (S n))) as Hlinks.
    eexists.
    replace (Z.of_nat (S n) - 1) with (Z.of_nat n) by lia.
    apply (level_spec fuel _ p r n).
    + by eapply level_keeps_levels.
    + left. by eapply level_keeps_trunk.
    + by eapply climbs_same_links.
    + by eapply is_root_same_links.
    + lia.
  - by eapply level_backfilled_self.
  - intros p Hp Hl. by eapply level_backfilled_parent.
  - intros y Hy Hp. by eapply level_backfilled_other.
Qed.

(** [level_backfills_parent_only] on the node [C] of the chain whose root
    has been levelled: the level is 3, [B] receives 2, [A] is untouched. *)
Lemma level_backfills_parent_only_witness :
  ∃ h', level 3 0 chain_levelled = Ok (Some 3, h')
    ∧ (∃ h'', level 3 1 h' = Ok (Some 2, h''))
    ∧ cached_level h' 1 = Some (Some 2)
    ∧ h' !! 2%nat = chain_levelled !! 2%nat.
Proof.
  destruct (chain_levelled !! 0%nat) as [s|] eqn:Hs; [|by vm_compute in Hs].
  destruct (root_of_climbs 4 chain_levelled 0 3 3) as [Hn Hr];
    [vm_compute; reflexivity|].
  destruct (level_backfills_parent_only chain_levelled 0 3 s 3 3)
    as (h' & H1 & _ & H2 & _ & H3 & H4).
  - apply levels_cachedb_sound. vm_compute. reflexivity.
  - left. apply trunk_levelledb_sound. vm_compute. reflexivity.
  - exact Hs.
  - exact Hn.
  - exact Hr.
  - lia.
  - assert (parent s = Some 1%nat ∧ _level s = None) as [Hp Hl].
    { vm_compute in Hs. injection Hs as <-. done. }
    exists h'. split; [exact H1|]. split; [exact (H2 _ Hp)|].
    split.
    + destruct (H3 _ Hp Hl) as (ps & _ & Hps).
      unfold cached_level. by rewrite Hps.
    + apply H4; [done|]. rewrite Hp. done.
Defined.

(** C4 fails as stated on the chain root → A → B → C.  On the chain as the
    constructor leaves it, [level(C)] raises [AttributeError]; once the
    level of the root is cached, [level(C)] is 3 and the cache of [B]
    receives 2, but the cache of [A] stays [None] where the specification
    has 1. *)
Lemma level_backfill_counterexample :
  level 10 0 chain_store = Raise AttributeError
  ∧ ∃ h', level 10 0 chain_levelled = Ok (Some 3, h')
      ∧ cached_level h' 1 = Some (Some 2)
      ∧ cached_level h' 2 = Some None
      ∧ cached_level h' 2 ≠ Some (Some 1).
Proof.
  split; [vm_compute; reflexivity|].
  eexists. split; [vm_compute; reflexivity|]. by vm_compute.
Qed.

(** ** Footprint *)

(** C8 on [pair_levelled], the tree of [B] with its leaves [L1] at (0,0) and
    [L2] at (1,1), the root's level cached, over the array [zeros].  Called
    on the leaf [L1] alone, [fill_footprint] writes 1, the level of [L1], at
    (0,0).  Called on the root [B] it returns, the level of each leaf is 1,
    and the cells the leaves own hold 0, the level of [B], where the
    specification has 1: the array is [zeros] again.  On [pair_store], where
    no level is cached yet, the call raises [AttributeError]. *)
Theorem fill_footprint_overwrites_children :
  ∃ a h' a1 h1,
    fill_footprint 3 5 2 zeros true pair_levelled = Ok (a, h')
    ∧ cached_level h' 0 = Some (Some 1)
    ∧ cached_level h' 1 = Some (Some 1)
    ∧ a !! [0; 0] = Some 0
    ∧ a !! [1; 1] = Some 0
    ∧ a = zeros
    ∧ fill_footprint 3 5 0 zeros true pair_levelled = Ok (a1, h1)
    ∧ a1 !! [0; 0] = Some 1
    ∧ fill_footprint 3 5 2 zeros true pair_store = Raise AttributeError.
Proof.
  eexists _, _, _, _. split; [vm_compute; reflexivity|].
  do 5 (split; [vm_compute; reflexivity|]).
  split; [vm_compute; reflexivity|]. by vm_compute.
Qed.

(** ** The stores the class produces *)

(** What [adopt] leaves: the children point to [self], nothing else
    changes. *)
Lemma adopt_lookup (self : ref) (cs : list ref) (h h1 : heap) (y : ref) :
  adopt self cs h = Ok h1 →
  h1 !! y = if bool_decide (y ∈ cs)
            then with_parent (Some self) <$> h !! y
            else h !! y.
Proof.
  revert h. induction cs as [|c cs IH]; intros h; simpl.
  - by intros [= ->].
  - intros H. apply bind_Ok in H as (hm & Hset & H).
    unfold setattr in Hset. apply bind_Ok in Hset as (sc & Hsc & [= <-]).
    apply deref_Ok in Hsc. rewrite (IH _ H).
    destruct (decide (y = c)) as [->|Hne].
    + rewrite lookup_insert_eq, Hsc.
      rewrite (bool_decide_eq_true_2 (c ∈ c :: cs)) by left.
      by case_bool_decide.
    + rewrite lookup_insert_ne by done.
      case_bool_decide as Hin.
      * rewrite bool_decide_eq_true_2; [done|by right].
      * rewrite bool_decide_eq_false_2; [done|].
        intros [?|?]%elem_of_cons; done.
Qed.

(** Paths survive when every link does. *)
Lemma climbs_mono (h h' : heap) (x a : ref) (n : nat) :
  (∀ y s, h !! y = Some s →
     ∃ s', h' !! y = Some s' ∧ ∀ p, parent s = Some p → parent s' = Some p) →
  climbs h x n a → climbs h' x n a.
Proof.
  intros Hl. induction 1 as [x s Hs | x s p n a Hs Hp _ IH].
  - destruct (Hl x s Hs) as (s' & Hs' & _). by eapply climbs_here.
  - destruct (Hl x s Hs) as (s' & Hs' & Hp'). eapply climbs_up; eauto.
Qed.

(** Building an object over roots keeps the forest and the caches. *)
Lemma init_keeps_forest (self : ref) (px : pixels) (cs : list ref)
    (idx : option Z) (h h' : heap) :
  forest h → ancestors_cached h → h !! self = None →
  (∀ c, c ∈ cs → is_root h c) →
  __init__ self px cs idx h = Ok h' →
  forest h' ∧ ancestors_cached h'.
Proof.
  intros Hf Hc Hfresh Hroots Hinit.
  apply init_Ok in Hinit
    as (h1 & new & Hadopt & -> & _ & Hpnew & _ & _ & _ & _ & _ & Hanew & _).
  pose proof (λ y, adopt_lookup self cs h h1 y Hadopt) as Hh1.
  assert (∀ y s, h !! y = Some s →
            ∃ s', <[self := new]> h1 !! y = Some s'
              ∧ _ancestor s' = _ancestor s
              ∧ (parent s' = parent s
                 ∨ parent s = None ∧ parent s' = Some self ∧ y ∈ cs)) as Hold.
  { intros y s Hs. assert (y ≠ self) as Hne by congruence.
    rewrite lookup_insert_ne by done. rewrite Hh1, Hs.
    case_bool_decide as Hin; simpl.
    - eexists. split; [done|]. split; [done|]. right.
      destruct (Hroots y Hin) as (s' & Hs' & Hp').
      assert (s' = s) as -> by congruence. done.
    - exists s. auto. }
  assert (∀ x a n, climbs h x n a → climbs (<[self := new]> h1) x n a) as Hmono.
  { intros x a n. apply climbs_mono. intros y s Hs.
    destruct (Hold y s Hs) as (s' & Hs' & _ & [Hp | (Hp & _)]).
    - exists s'. split; [done|]. intros p. by rewrite Hp.
    - exists s'. split; [done|]. intros p. by rewrite Hp. }
  assert (is_root (<[self := new]> h1) self) as Hself
    by (exists new; by rewrite lookup_insert_eq).
  split.
  - intros y sy Hy. destruct (decide (y = self)) as [->|Hne].
    { exists 0%nat, self. split; [by eapply climbs_here | done]. }
    rewrite lookup_insert_ne in Hy by done.
    assert (is_Some (h !! y)) as [s Hs].
    { rewrite Hh1 in Hy. case_bool_decide; [|by eexists].
      destruct (h !! y); [by eexists | done]. }
    destruct (Hf y s Hs) as (n & r & Hn & (sr & Hsr & Hpr)).
    destruct (Hold r sr Hsr) as (sr' & Hsr' & _ & [Hp | (_ & Hp & _)]).
    + exists n, r. split; [by apply Hmono|].
      exists sr'. split; [done|]. congruence.
    + exists (n + 1)%nat, self. split; [|done].
      eapply climbs_trans; [by apply Hmono|].
      eapply climbs_up; [done..|]. by eapply climbs_here, lookup_insert_eq.
  - intros y sy a Hy Ha. destruct (decide (y = self)) as [->|Hne].
    { rewrite lookup_insert_eq in Hy. injection Hy as <-. congruence. }
    rewrite lookup_insert_ne in Hy by done.
    assert (is_Some (h !! y)) as [s Hs].
    { rewrite Hh1 in Hy. case_bool_decide; [|by eexists].
      destruct (h !! y); [by eexists | done]. }
    destruct (Hold y s Hs) as (s' & Hs' & Ha' & _).
    rewrite lookup_insert_ne in Hs' by done.
    assert (s' = sy) as -> by congruence.
    destruct (Hc y s a Hs) as [m Hm]; [congruence|].
    exists m. by apply Hmono.
Qed.

(** In a forest the parent of an object is an object. *)
Lemma forest_parent_step (h : heap) (x p : ref) (s : Structure) :
  forest h → h !! x = Some s → parent s = Some p → climbs h x 1 p.
Proof.
  intros Hf Hs Hp. destruct (Hf x s Hs) as (n & r & Hn & Hr).
  destruct n as [|n]; [parented Hn Hr|].
  apply climbs_S in Hn as (s' & p' & Hs' & Hp' & Hpn).
  assert (p' = p) as -> by congruence.
  destruct (climbs_in_store _ _ _ _ Hpn) as [[sp Hsp] _].
  eapply climbs_up; [done..|]. by eapply climbs_here.
Qed.

(** The loop of [ancestor], whenever it returns, has only moved the cache of
    [self] along sound pointers. *)
Lemma ancestor_loop_keeps (fuel : nat) :
  ∀ (h h' : heap) (self : ref),
    forest h → ancestors_cached h → ancestor_loop fuel self h = Ok h' →
    same_links h h' ∧ ancestors_cached h'.
Proof.
  induction fuel as [|fuel IH]; intros h h' self Hf Hc; simpl; [done|].
  intros H. apply bind_Ok in H as (s & Hs & H). apply deref_Ok in Hs.
  apply bind_Ok in H as (a & Ha & H).
  assert (_ancestor s = Some a) as Ha'
    by (destruct (_ancestor s); by inversion Ha).
  apply bind_Ok in H as (sa & Hsa & H). apply deref_Ok in Hsa.
  destruct (parent sa) as [p|] eqn:Hp; [|by injection H as <-].
  apply bind_Ok in H as (h1 & Hset & H).
  rewrite (setattr_Some _ _ _ _ Hs) in Hset. injection Hset as <-.
  destruct (Hc self s a Hs Ha') as [m Hm].
  assert (∃ i, climbs h self (S i) (match _ancestor sa with
                                    | Some a' => a' | None => p end))
    as [i Hi].
  { destruct (_ancestor sa) as [a'|] eqn:Haa.
    - destruct (Hc a sa a' Hsa Haa) as [n Hn].
      exists (m + S n)%nat.
      replace (S (m + S n)) with (S m + S n)%nat by lia.
      by eapply climbs_trans.
    - exists (m + 1)%nat. replace (S (m + 1)) with (S m + 1)%nat by lia.
      eapply climbs_trans; [done|]. by eapply forest_parent_step. }
  assert (same_links h (<[self := with_ancestor
            (Some (match _ancestor sa with Some a' => a' | None => p end))
            s]> h)) as Hl1 by (by apply (same_links_insert _ _ s)).
  destruct (IH _ _ _ (forest_same_links _ _ Hl1 Hf)
              (ancestors_cached_insert _ _ _ _ _ Hc Hs Hi) H) as [Hl Hc'].
  split; [|done]. by eapply same_links_trans.
Qed.

(** [ancestor], whenever it returns, keeps the forest and the caches. *)
Lemma ancestor_keeps_forest_cache (fuel : nat) (h h' : heap) (x : ref)
    (r : option ref) :
  forest h → ancestors_cached h → ancestor fuel x h = Ok (r, h') →
  forest h' ∧ ancestors_cached h'.
Proof.
  intros Hf Hc H. unfold ancestor in H.
  apply bind_Ok in H as (s & Hs & H). apply deref_Ok in Hs.
  destruct (parent s) as [p|] eqn:Hp; [|by injection H as _ <-].
  apply bind_Ok in H as (h1 & Hseed & H).
  apply bind_Ok in H as (h2 & Hloop & H).
  apply bind_Ok in H as (s2 & _ & [= _ <-]).
  assert (same_links h h1 ∧ ancestors_cached h1) as [Hl1 Hc1].
  { destruct (_ancestor s) as [a|] eqn:Ha.
    - injection Hseed as <-. done.
    - rewrite (setattr_Some _ _ _ _ Hs) in Hseed. injection Hseed as <-.
      split; [by apply (same_links_insert _ _ s)|].
      eapply ancestors_cached_insert; [done..|].
      by eapply forest_parent_step. }
  destruct (ancestor_loop_keeps _ _ _ _ (forest_same_links _ _ Hl1 Hf)
              Hc1 Hloop) as [Hl2 Hc2].
  split; [|done].
  eapply forest_same_links; [|exact Hf]. by eapply same_links_trans.
Qed.

(** [level], whenever it returns, has written [_level] caches only. *)
Lemma setattr_level_same (h h' : heap) (x : ref) (l : option Z) :
  setattr (with_level l) x h = Ok h' → same_but_levels h h'.
Proof.
  unfold setattr. intros H. apply bind_Ok in H as (s & Hs & [= <-]).
  apply deref_Ok in Hs. intros y. destruct (decide (x = y)) as [<-|Hne].
  - by rewrite lookup_insert_eq, Hs.
  - by rewrite lookup_insert_ne.
Qed.

Lemma same_but_levels_trans (h1 h2 h3 : heap) :
  same_but_levels h1 h2 → same_but_levels h2 h3 → same_but_levels h1 h3.
Proof. intros H1 H2 y. by rewrite H2. Qed.

Lemma level_same_but_levels (fuel : nat) (h h' : heap) (x : ref)
    (l : option Z) :
  level fuel x h = Ok (l, h') → same_but_levels h h'.
Proof.
  unfold level. intros H.
  apply bind_Ok in H as (s & Hs & H).
  apply bind_Ok in H as (h1 & Hh1 & H).
  apply bind_Ok in H as (s' & _ & [= _ <-]).
  destruct (_level s); [by injection Hh1 as <-|].
  destruct (parent s) as [p|]; [|by eapply setattr_level_same].
  apply bind_Ok in Hh1 as (ps & _ & Hh1).
  destruct (_level ps); [by eapply setattr_level_same|].
  apply bind_Ok in Hh1 as ([obj diff] & _ & Hh1).
  apply bind_Ok in Hh1 as (so & _ & Hh1).
  apply bind_Ok in Hh1 as (l0 & _ & Hh1).
  apply bind_Ok in Hh1 as (h2 & Hh2 & Hh1).
  apply bind_Ok in Hh1 as (s1 & _ & Hh1).
  apply bind_Ok in Hh1 as (p1 & _ & Hh1).
  apply bind_Ok in Hh1 as (l1 & _ & Hh1).
  eapply same_but_levels_trans; by eapply setattr_level_same.
Qed.

Lemma same_but_levels_fields (h h' : heap) (y : ref) (s : Structure) :
  same_but_levels h h' → h !! y = Some s →
  ∃ s', h' !! y = Some s' ∧ parent s' = parent s
    ∧ _ancestor s' = _ancestor s ∧ children s' = children s
    ∧ _indices s' = _indices s.
Proof.
  intros H Hs. specialize (H y). rewrite Hs in H.
  destruct (h' !! y) as [s'|]; [|done].
  exists s'. split; [done|]. simpl in H. injection H as H.
  destruct s, s'. unfold with_level in H. simpl in *. by simplify_eq.
Qed.

Lemma same_but_levels_links (h h' : heap) :
  same_but_levels h h' → same_links h h'.
Proof.
  intros H y. destruct (h !! y) as [s|] eqn:Hs.
  - destruct (same_but_levels_fields _ _ _ _ H Hs) as (s' & Hs' & Hp & _).
    rewrite Hs'. simpl. by rewrite Hp.
  - specialize (H y). rewrite Hs in H. by destruct (h' !! y).
Qed.

Lemma same_but_levels_sym (h h' : heap) :
  same_but_levels h h' → same_but_levels h' h.
Proof. intros H y. by rewrite H. Qed.

Lemma level_keeps_forest_cache_of (h h' : heap) :
  same_but_levels h h' → forest h → ancestors_cached h →
  forest h' ∧ ancestors_cached h'.
Proof.
  intros H Hf Hc.
  pose proof (same_but_levels_links _ _ H) as Hl.
  split; [by eapply forest_same_links|].
  intros y sy a Hy Ha.
  destruct (same_but_levels_fields _ _ _ _ (same_but_levels_sym _ _ H) Hy)
    as (s & Hs & _ & Has & _).
  destruct (Hc y s a Hs) as [m Hm]; [congruence|].
  exists m. by eapply climbs_same_links.
Qed.

(** ** What [fill_footprint] writes, in general *)

(** A returned level is an integer, and it is then cached on the node. *)
Lemma level_returns_cached (fuel : nat) (h h' : heap) (x : ref)
    (l : option Z) :
  level fuel x h = Ok (l, h') →
  ∃ v s', l = Some v ∧ h' !! x = Some s' ∧ _level s' = Some v.
Proof.
  unfold level. intros H.
  apply bind_Ok in H as (s & Hs & H). apply deref_Ok in Hs.
  apply bind_Ok in H as (h1 & Hh1 & H).
  apply bind_Ok in H as (s' & Hs' & [= <- <-]). apply deref_Ok in Hs'.
  assert (∀ v h2, setattr (with_level (Some v)) x h = Ok h2 →
            ∃ s2, h2 !! x = Some s2 ∧ _level s2 = Some v) as Hset.
  { intros v h2 H2. rewrite (setattr_Some _ _ _ _ Hs) in H2.
    injection H2 as <-. eexists. by rewrite lookup_insert_eq. }
  assert (∃ v s2, h1 !! x = Some s2 ∧ _level s2 = Some v)
    as (v & s2 & Hs2 & Hv);
    [|assert (s2 = s') as -> by congruence; by exists v, s'].
  destruct (_level s) as [l|] eqn:Hl; [injection Hh1 as <-; by exists l, s|].
  destruct (parent s) as [p|]; [|by eexists; eapply Hset].
  apply bind_Ok in Hh1 as (ps & _ & Hh1).
  destruct (_level ps); [by eexists; eapply Hset|].
  apply bind_Ok in Hh1 as ([obj diff] & _ & Hh1).
  apply bind_Ok in Hh1 as (so & _ & Hh1).
  apply bind_Ok in Hh1 as (l0 & _ & Hh1).
  apply bind_Ok in Hh1 as (h2 & Hh2 & Hh1).
  apply bind_Ok in Hh1 as (s1 & _ & Hh1).
  apply bind_Ok in Hh1 as (p1 & _ & Hh1).
  apply bind_Ok in Hh1 as (l1 & _ & Hh1).
  destruct (Hset _ _ Hh2) as (s2 & Hs2 & Hv).
  unfold setattr in Hh1. apply bind_Ok in Hh1 as (sp & Hsp & [= <-]).
  destruct (decide (p1 = x)) as [->|Hne].
  - eexists _, _. by rewrite lookup_insert_eq.
  - exists l0, s2. by rewrite lookup_insert_ne.
Qed.

Lemma level_cached_stable (fuel : nat) (h : heap) (x : ref) (s : Structure)
    (v : Z) :
  h !! x = Some s → _level s = Some v → level fuel x h = Ok (Some v, h).
Proof.
  intros Hs Hv. unfold level. rewrite (deref_Some _ _ _ Hs). simpl.
  rewrite Hv. simpl. rewrite (deref_Some _ _ _ Hs). simpl. by rewrite Hv.
Qed.

(** Once the level is cached, the loop of [fill_footprint] writes that one
    value at every index it is given and nowhere else. *)
Lemma stamp_cached (fuel : nat) (x : ref) (s : Structure) (v : Z)
    (idxs : list coord) :
  ∀ (array a : ndarray) (h h' : heap),
    h !! x = Some s → _level s = Some v →
    stamp fuel x idxs array h = Ok (a, h') →
    h' = h
    ∧ (∀ i, i ∈ idxs → a !! i = Some v)
    ∧ (∀ i, i ∉ idxs → a !! i = array !! i).
Proof.
  induction idxs as [|i idxs IH]; intros array a h h' Hs Hv; simpl.
  - intros [= <- <-]. split; [done|]. split; [|done].
    intros i Hi. by apply elem_of_nil in Hi.
  - rewrite (level_cached_stable fuel h x s v Hs Hv). simpl.
    intros H. apply bind_Ok in H as (array1 & Hset & H).
    unfold array_set in Hset.
    destruct (array !! i); [|done]. injection Hset as <-.
    destruct (IH _ _ _ _ Hs Hv H) as (-> & Hin & Hout).
    split; [done|]. split.
    + intros j Hj. destruct (decide (j ∈ idxs)) as [Hjin|Hjout]; [by apply Hin|].
      apply elem_of_cons in Hj as [->|Hj]; [|done].
      by rewrite (Hout _ Hjout), lookup_insert_eq.
    + intros j Hj. apply not_elem_of_cons in Hj as [Hji Hj].
      rewrite (Hout _ Hj). by rewrite lookup_insert_ne.
Qed.

Lemma stamp_spec (fuel : nat) (x : ref) (idxs : list coord)
    (array a : ndarray) (h h' : heap) :
  stamp fuel x idxs array h = Ok (a, h') → idxs ≠ [] →
  ∃ v, cached_level h' x = Some (Some v)
    ∧ level fuel x h = Ok (Some v, h')
    ∧ (∀ i, i ∈ idxs → a !! i = Some v)
    ∧ (∀ i, i ∉ idxs → a !! i = array !! i).
Proof.
  destruct idxs as [|i idxs]; [done|]. intros H _.
  assert (stamp fuel x (i :: idxs) array h = Ok (a, h')) as Hall by done.
  simpl in H. apply bind_Ok in H as ([l h1] & Hlevel & H).
  destruct (level_returns_cached _ _ _ _ _ Hlevel) as (v & s1 & -> & Hs1 & Hv).
  apply bind_Ok in H as (v0 & Hv0 & H). simpl in Hv0. injection Hv0 as <-.
  apply bind_Ok in H as (array1 & Hset & H).
  destruct (stamp_cached _ _ _ _ _ _ _ _ _ Hs1 Hv H) as (-> & _ & _).
  assert (stamp fuel x (i :: idxs) array h1 = Ok (a, h1)) as Hagain.
  { simpl. rewrite (level_cached_stable fuel h1 x s1 v Hs1 Hv). simpl.
    rewrite Hset. simpl. exact H. }
  destruct (stamp_cached _ _ _ _ _ _ _ _ _ Hs1 Hv Hagain) as (_ & Hin & Hout).
  exists v. unfold cached_level. rewrite Hs1. simpl. by rewrite Hv.
Qed.

Lemma same_but_levels_refl (h : heap) : same_but_levels h h.
Proof. by intros y. Qed.

Lemma stamp_same_but_levels (fuel : nat) (x : ref) (idxs : list coord) :
  ∀ (array a : ndarray) (h h' : heap),
    stamp fuel x idxs array h = Ok (a, h') → same_but_levels h h'.
Proof.
  induction idxs as [|i idxs IH]; intros array a h h'; simpl.
  - intros [= _ <-]. apply same_but_levels_refl.
  - intros H. apply bind_Ok in H as ([l h1] & Hlevel & H).
    apply bind_Ok in H as (v & _ & H).
    apply bind_Ok in H as (array1 & _ & H).
    eapply same_but_levels_trans;
      [by eapply level_same_but_levels | by eapply IH].
Qed.

(** The pixel views do not read the [_level] caches. *)
Lemma indices_same_but_levels (d : nat) (h h' : heap) :
  same_but_levels h h' → ∀ x, indices d h' x = indices d h x.
Proof.
  intros Hsame. induction d as [|d IH]; intros x; simpl; [done|].
  unfold deref. destruct (h !! x) as [s|] eqn:Hs.
  - destruct (same_but_levels_fields _ _ _ _ Hsame Hs)
      as (s' & -> & _ & _ & Hcs & Hix).
    simpl. unfold indices_self. rewrite Hcs, Hix.
    assert (∀ cs acc, gather (indices d h') cs acc
                      = gather (indices d h) cs acc) as ->; [|done].
    induction cs as [|c cs IHcs]; intros acc; simpl; [done|].
    rewrite IH. destruct (indices d h c); simpl; [apply IHcs|done..].
  - specialize (Hsame x). rewrite Hs in Hsame.
    by destruct (h' !! x).
Qed.

Lemma fill_footprint_same_but_levels (depth fuel : nat) :
  ∀ (x : ref) (array a : ndarray) (recursive : bool) (h h' : heap),
    fill_footprint depth fuel x array recursive h = Ok (a, h') →
    same_but_levels h h'.
Proof.
  induction depth as [|d IH]; intros x array a recursive h h'; simpl; [done|].
  intros H. apply bind_Ok in H as (s & _ & H).
  apply bind_Ok in H as ([array1 h1] & Hkids & H).
  apply bind_Ok in H as (idxs & _ & H).
  eapply same_but_levels_trans; [|by eapply stamp_same_but_levels].
  destruct recursive; [|by injection Hkids as _ <-].
  clear H. revert array h Hkids.
  induction (children s) as [|c cs IHcs]; intros array h; simpl.
  - intros [= _ <-]. apply same_but_levels_refl.
  - intros H. apply bind_Ok in H as ([array2 h2] & Hc & H).
    eapply same_but_levels_trans; [by eapply IH | by eapply IHcs].
Qed.

(** Whenever [fill_footprint] returns, every pixel of the whole subtree of
    the node, the children's pixels included, holds one value: the level of
    the node it was called on. *)
Lemma fill_footprint_stamps_subtree (d fuel : nat) (x : ref)
    (array a : ndarray) (recursive : bool) (h h' : heap) :
  fill_footprint (S d) fuel x array recursive h = Ok (a, h') →
  ∃ idxs, indices d h x = Ok idxs
    ∧ same_but_levels h h'
    ∧ (idxs ≠ [] →
       ∃ v, cached_level h' x = Some (Some v)
         ∧ ∀ i, i ∈ idxs → a !! i = Some v).
Proof.
  intros H.
  pose proof (fill_footprint_same_but_levels _ _ _ _ _ _ _ _ H) as Hsame.
  simpl in H. apply bind_Ok in H as (s & _ & H).
  apply bind_Ok in H as ([array1 h1] & Hkids & H).
  apply bind_Ok in H as (idxs & Hidxs & H).
  assert (same_but_levels h h1) as Hsame1.
  { destruct recursive; [|by injection Hkids as _ <-].
    clear H Hidxs Hsame. revert array h Hkids.
    induction (children s) as [|c cs IHcs]; intros array h; simpl.
    - intros [= _ <-]. apply same_but_levels_refl.
    - intros H. apply bind_Ok in H as ([array2 h2] & Hc & H).
      eapply same_but_levels_trans;
        [by eapply fill_footprint_same_but_levels | by eapply IHcs]. }
  exists idxs. split; [by rewrite <- (indices_same_but_levels d h h1)|].
  split; [done|]. intros Hne.
  destruct (stamp_spec _ _ _ _ _ _ _ H Hne) as (v & Hv & _ & Hin & _).
  by exists v.
Qed.

(** ** Every store the class produces *)

(** [_add_pixel] and [_merge] go through [values]: they never return, so
    they never assign [vmin] and [vmax]. *)
Lemma add_pixel_not_returned (depth : nat) (x : ref) (index : coord)
    (value : Z) (h : heap) :
  returned (_add_pixel depth x index value h) = false.
Proof.
  unfold _add_pixel. destruct (indices depth h x); simpl; [|done..].
  apply bind_not_returned, values_not_returned.
Qed.

Lemma merge_not_returned (depth : nat) (x other : ref) (h : heap) :
  returned (_merge depth x other h) = false.
Proof.
  unfold _merge. destruct (indices depth h x); simpl; [|done..].
  destruct (indices depth h other); simpl; [|done..].
  apply bind_not_returned, values_not_returned.
Qed.

(** [get_npix] and [get_peak] can only return what is already cached, and
    then write nothing. *)
Lemma get_npix_Ok (depth : nat) (x : ref) (subtree : bool) (h h' : heap)
    (n : Z) :
  get_npix depth x subtree h = Ok (n, h') →
  h' = h ∧ ∃ s, h !! x = Some s ∧ _npix_total s = Some n.
Proof.
  unfold get_npix. intros H.
  apply bind_Ok in H as (s & Hs & H). apply deref_Ok in Hs.
  destruct subtree; simpl in H; [|done].
  destruct (_npix_total s) as [m|] eqn:Hm.
  - simpl in H. rewrite (deref_Some _ _ _ Hs) in H. simpl in H.
    rewrite Hm in H. injection H as <- <-. eauto.
  - apply bind_Ok in H as (h1 & Hh1 & _).
    apply bind_Ok in Hh1 as (vs & Hvs & _).
    pose proof (values_not_returned depth h x) as Hnot.
    by rewrite Hvs in Hnot.
Qed.

Lemma get_peak_self_Ok (depth : nat) (x : ref) (h h' : heap)
    (pk : coord * Z) :
  get_peak_self depth x h = Ok (pk, h') →
  h' = h ∧ ∃ s, h !! x = Some s ∧ _peak s = Some pk.
Proof.
  unfold get_peak_self. intros H.
  apply bind_Ok in H as (s & Hs & H). apply deref_Ok in Hs.
  destruct (_peak s) as [q|] eqn:Hq.
  - simpl in H. rewrite (deref_Some _ _ _ Hs) in H. simpl in H.
    rewrite Hq in H. injection H as <- <-. eauto.
  - apply bind_Ok in H as (h1 & Hh1 & _).
    apply bind_Ok in Hh1 as (idxs & _ & Hh1).
    apply bind_Ok in Hh1 as (vs & Hvs & _).
    pose proof (values_not_returned depth h x) as Hnot.
    by rewrite Hvs in Hnot.
Qed.

Lemma get_peak_Ok (depth : nat) (x : ref) (subtree : bool) (h h' : heap)
    (pk : coord * Z) :
  get_peak depth x subtree h = Ok (pk, h') →
  h' = h ∧ ∃ s, h !! x = Some s ∧ _peak s = Some pk.
Proof.
  unfold get_peak. intros H.
  apply bind_Ok in H as ([q h1] & Hself & H).
  destruct subtree; simpl in H; [done|]. injection H as <- <-.
  by apply get_peak_self_Ok in Hself.
Qed.

(** Writes that keep the four attributes keep [unassigned]. *)
Lemma unassigned_insert (h : heap) (x : ref) (s' : Structure) :
  unassigned h →
  vmin s' = None ∧ vmax s' = None ∧ _npix_total s' = None ∧ _peak s' = None →
  unassigned (<[x := s']> h).
Proof.
  intros Hu Hs' y sy Hy. destruct (decide (x = y)) as [<-|Hne].
  - rewrite lookup_insert_eq in Hy. by injection Hy as <-.
  - rewrite lookup_insert_ne in Hy by done. by eapply Hu.
Qed.

Lemma init_keeps_unassigned (self : ref) (px : pixels) (cs : list ref)
    (idx : option Z) (h h' : heap) :
  unassigned h → __init__ self px cs idx h = Ok h' → unassigned h'.
Proof.
  intros Hu Hinit.
  apply init_Ok in Hinit
    as (h1 & new & Hadopt & -> & _ & _ & _ & _ & Hlo & Hhi & _ & _ & Hn & Hp).
  apply unassigned_insert; [|done].
  intros y sy Hy. rewrite (adopt_lookup _ _ _ _ y Hadopt) in Hy.
  case_bool_decide; [|by eapply Hu].
  destruct (h !! y) as [s|] eqn:Hs; [|done]. injection Hy as <-.
  apply (Hu y s Hs).
Qed.

Lemma ancestor_loop_keeps_unassigned (fuel : nat) :
  ∀ (h h' : heap) (self : ref),
    unassigned h → ancestor_loop fuel self h = Ok h' → unassigned h'.
Proof.
  induction fuel as [|fuel IH]; intros h h' self Hu; simpl; [done|].
  intros H. apply bind_Ok in H as (s & Hs & H). apply deref_Ok in Hs.
  apply bind_Ok in H as (a & _ & H).
  apply bind_Ok in H as (sa & _ & H).
  destruct (parent sa) as [p|]; [|by injection H as <-].
  apply bind_Ok in H as (h1 & Hset & H).
  rewrite (setattr_Some _ _ _ _ Hs) in Hset. injection Hset as <-.
  eapply IH; [|exact H]. apply unassigned_insert; [done|]. apply (Hu _ _ Hs).
Qed.

Lemma ancestor_keeps_unassigned (fuel : nat) (h h' : heap) (x : ref)
    (r : option ref) :
  unassigned h → ancestor fuel x h = Ok (r, h') → unassigned h'.
Proof.
  intros Hu H. unfold ancestor in H.
  apply bind_Ok in H as (s & Hs & H). apply deref_Ok in Hs.
  destruct (parent s) as [p|]; [|by injection H as _ <-].
  apply bind_Ok in H as (h1 & Hseed & H).
  apply bind_Ok in H as (h2 & Hloop & H).
  apply bind_Ok in H as (s2 & _ & [= _ <-]).
  eapply ancestor_loop_keeps_unassigned; [|exact Hloop].
  destruct (_ancestor s); [by injection Hseed as <-|].
  rewrite (setattr_Some _ _ _ _ Hs) in Hseed. injection Hseed as <-.
  apply unassigned_insert; [done|]. apply (Hu _ _ Hs).
Qed.

(** Writes to [_level] caches keep the three invariants. *)
Lemma same_but_levels_keeps (h h' : heap) :
  same_but_levels h h' →
  forest h ∧ ancestors_cached h ∧ unassigned h →
  forest h' ∧ ancestors_cached h' ∧ unassigned h'.
Proof.
  intros H (Hf & Hc & Hu).
  destruct (level_keeps_forest_cache_of _ _ H Hf Hc) as [Hf' Hc'].
  split; [done|]. split; [done|].
  intros y sy Hy. specialize (H y). rewrite Hy in H.
  destruct (h !! y) as [s|] eqn:Hs; [|done].
  simpl in H. injection H as H.
  destruct (Hu y s Hs) as (Hlo & Hhi & Hn & Hp).
  destruct s, sy. unfold with_level in H. simpl in *. by simplify_eq.
Qed.

(** The invariants of every store the class produces. *)
Lemma reachable_inv (h : heap) :
  reachable h → forest h ∧ ancestors_cached h ∧ unassigned h.
Proof.
  induction 1 as [| h self px cs idx h' _ (Hf & Hc & Hu) Hfresh Hroots Hinit
                  | h depth x index value h' _ _ Hadd
                  | h depth x other h' _ _ Hmerge
                  | h fuel x r h' _ (Hf & Hc & Hu) Hanc
                  | h fuel x l h' _ IH Hlev
                  | h depth fuel x array recursive a h' _ IH Hfill
                  | h depth x subtree n h' _ IH Hnpix
                  | h depth x subtree pk h' _ IH Hpeak].
  - split; [|split].
    + intros x s Hs. by rewrite lookup_empty in Hs.
    + intros x s a Hs. by rewrite lookup_empty in Hs.
    + intros x s Hs. by rewrite lookup_empty in Hs.
  - destruct (init_keeps_forest _ _ _ _ _ _ Hf Hc Hfresh Hroots Hinit).
    split; [done|split; [done|]]. by eapply init_keeps_unassigned.
  - pose proof (add_pixel_not_returned depth x index value h) as Hnot.
    by rewrite Hadd in Hnot.
  - pose proof (merge_not_returned depth x other h) as Hnot.
    by rewrite Hmerge in Hnot.
  - destruct (ancestor_keeps_forest_cache _ _ _ _ _ Hf Hc Hanc).
    split; [done|split; [done|]]. by eapply ancestor_keeps_unassigned.
  - eapply same_but_levels_keeps; [|exact IH]. by eapply level_same_but_levels.
  - eapply same_but_levels_keeps; [|exact IH].
    by eapply fill_footprint_same_but_levels.
  - by apply get_npix_Ok in Hnpix as [-> _].
  - by apply get_peak_Ok in Hpeak as [-> _].
Qed.

(** Every store the class produces is a forest with sound ancestor caches:
    what the properties of [ancestor] assume holds wherever the class can
    get. *)
Lemma reachable_forest (h : heap) :
  reachable h → forest h ∧ ancestors_cached h.
Proof. intros H. destruct (reachable_inv h H) as (Hf & Hc & _). done. Qed.

(** In every store the class produces, [height] raises [AttributeError] on
    every object, and [get_npix] and [get_peak] return on none. *)
Lemma reachable_no_height (h : heap) (x : ref) (s : Structure) :
  reachable h → h !! x = Some s → height h x = Raise AttributeError.
Proof.
  intros H Hs. destruct (reachable_inv h H) as (_ & _ & Hu).
  apply (height_without_vmax h x s Hs). apply (Hu x s Hs).
Qed.

Lemma reachable_no_npix (h : heap) (depth : nat) (x : ref) (subtree : bool) :
  reachable h → returned (get_npix depth x subtree h) = false.
Proof.
  intros H. destruct (reachable_inv h H) as (_ & _ & Hu).
  destruct (get_npix depth x subtree h) as [[n h']| | |] eqn:Hn; [|done..].
  apply get_npix_Ok in Hn as (_ & s & Hs & Hsome).
  destruct (Hu x s Hs) as (_ & _ & Hnone & _). congruence.
Qed.

Lemma reachable_no_peak (h : heap) (depth : nat) (x : ref) (subtree : bool) :
  reachable h → returned (get_peak depth x subtree h) = false.
Proof.
  intros H. destruct (reachable_inv h H) as (_ & _ & Hu).
  destruct (get_peak depth x subtree h) as [[pk h']| | |] eqn:Hpk; [|done..].
  apply get_peak_Ok in Hpk as (_ & s & Hs & Hsome).
  destruct (Hu x s Hs) as (_ & _ & _ & Hnone). congruence.
Qed.

(** ** The general lemmas on the example stores *)

(** [indices_Ok] on the branch [B] of [pair_store]. *)
Lemma indices_Ok_witness :
  ∃ s subs, pair_store !! 2%nat = Some s
    ∧ Forall2 (λ c sub, indices 1 pair_store c = Ok sub) (children s) subs
    ∧ [[2; 2]; [0; 0]; [1; 1]] = indices_self s ++ concat subs
    ∧ length [[2; 2]; [0; 0]; [1; 1]]
      = (length (indices_self s) + sum_list (length <$> subs))%nat.
Proof.
  apply (indices_Ok 1 pair_store 2 [[2; 2]; [0; 0]; [1; 1]]).
  vm_compute. reflexivity.
Defined.

(** The example stores are stores the class produces. *)
Lemma singleton_root (h : heap) (c : ref) (s : Structure) :
  h !! c = Some s → parent s = None → ∀ c', c' ∈ [c] → is_root h c'.
Proof. intros Hs Hp c' ->%list_elem_of_singleton. by exists s. Qed.

Lemma chain_store_reachable : reachable chain_store.
Proof.
  pose (h1 := the_store (__init__ 0 (OnePixel [0; 0] 9) [] (Some 0) ∅)).
  pose (h2 := the_store (__init__ 1 (OnePixel [1; 0] 7) [0%nat] (Some 1) h1)).
  pose (h3 := the_store (__init__ 2 (OnePixel [2; 0] 5) [1%nat] (Some 2) h2)).
  apply (reachable_init h3 3 (OnePixel [3; 0] 3) [2%nat] (Some 3));
    [|vm_compute; reflexivity
     |eapply singleton_root; vm_compute; reflexivity
     |vm_compute; reflexivity].
  apply (reachable_init h2 2 (OnePixel [2; 0] 5) [1%nat] (Some 2));
    [|vm_compute; reflexivity
     |eapply singleton_root; vm_compute; reflexivity
     |vm_compute; reflexivity].
  apply (reachable_init h1 1 (OnePixel [1; 0] 7) [0%nat] (Some 1));
    [|vm_compute; reflexivity
     |eapply singleton_root; vm_compute; reflexivity
     |vm_compute; reflexivity].
  apply (reachable_init ∅ 0 (OnePixel [0; 0] 9) [] (Some 0));
    [apply reachable_empty
     |vm_compute; reflexivity
     |intros c Hc; by apply elem_of_nil in Hc
     |vm_compute; reflexivity].
Qed.

Lemma pair_store_reachable : reachable pair_store.
Proof.
  pose (h1 := the_store (__init__ 0 (OnePixel [0; 0] 5) [] (Some 0) ∅)).
  pose (h2 := the_store (__init__ 1 (OnePixel [1; 1] 3) [] (Some 1) h1)).
  apply (reachable_init h2 2 (OnePixel [2; 2] 2) [0; 1]%nat (Some 2));
    [|vm_compute; reflexivity| |vm_compute; reflexivity].
  - apply (reachable_init h1 1 (OnePixel [1; 1] 3) [] (Some 1));
      [|vm_compute; reflexivity
       |intros c Hc; by apply elem_of_nil in Hc
       |vm_compute; reflexivity].
    apply (reachable_init ∅ 0 (OnePixel [0; 0] 5) [] (Some 0));
      [apply reachable_empty
       |vm_compute; reflexivity
       |intros c Hc; by apply elem_of_nil in Hc
       |vm_compute; reflexivity].
  - intros c [->|Hc]%elem_of_cons.
    + eexists. split; vm_compute; reflexivity.
    + apply list_elem_of_singleton in Hc as ->.
      eexists. split; vm_compute; reflexivity.
Qed.

(** [reachable_forest] on the chain, built by four constructor calls. *)
Lemma reachable_forest_witness :
  forest chain_store ∧ ancestors_cached chain_store.
Proof.
  apply (reachable_forest chain_store). apply chain_store_reachable.
Defined.

(** [reachable_no_height] on the leaf [C] of the chain. *)
Lemma reachable_no_height_witness :
  height chain_store 0 = Raise AttributeError.
Proof.
  destruct (chain_store !! 0%nat) as [s|] eqn:Hs; [|by vm_compute in Hs].
  apply (reachable_no_height chain_store 0 s); [|exact Hs].
  apply chain_store_reachable.
Defined.

(** [reachable_no_npix] and [reachable_no_peak] on the root [B] of
    [pair_store]. *)
Lemma reachable_no_npix_witness :
  returned (get_npix 1000 2 true pair_store) = false.
Proof.
  apply (reachable_no_npix pair_store 1000 2 true), pair_store_reachable.
Defined.

Lemma reachable_no_peak_witness :
  returned (get_peak 1000 2 true pair_store) = false.
Proof.
  apply (reachable_no_peak pair_store 1000 2 true), pair_store_reachable.
Defined.

(** [fill_footprint_stamps_subtree] on the root [B] of [pair_levelled]: the
    three pixels of its subtree all hold one value. *)
Lemma fill_footprint_stamps_subtree_witness :
  ∃ a h' idxs,
    fill_footprint 3 5 2 zeros true pair_levelled = Ok (a, h')
    ∧ indices 2 pair_levelled 2 = Ok idxs
    ∧ (idxs ≠ [] →
       ∃ v, cached_level h' 2 = Some (Some v)
         ∧ ∀ i, i ∈ idxs → a !! i = Some v).
Proof.
  destruct (fill_footprint 3 5 2 zeros true pair_levelled)
    as [[a h']| | |] eqn:H; [|by vm_compute in H..].
  destruct (fill_footprint_stamps_subtree 2 5 2 zeros a true pair_levelled h' H)
    as (idxs & Hidxs & _ & Hall).
  by exists a, h', idxs.
Defined.

(** * Further properties of the class *)

(** ** Descendants, Newick text and the mutators *)

(** [descendants] calls itself before anything else: on every object of
    every store, whatever the recursion limit, it raises
    [RecursionError]. *)
Theorem descendants_raises (depth : nat) (h : heap) (self : ref) :
  descendants depth h self = Raise RecursionError.
Proof.
  induction depth as [|d IH]; simpl; [done|]. by rewrite IH.
Qed.

Lemma newick_items_not_returned (view : ref → outcome string) (c : ref)
    (cs : list ref) :
  returned (view c) = false → returned (newick_items view (c :: cs)) = false.
Proof. intros H. simpl. by apply bind_not_returned. Qed.

(** [newick] needs the height of a leaf before it can format anything, and
    no object of a store the class produces has a height: [newick] returns
    no text, on any object, whatever the recursion limit. *)
Theorem newick_not_returned (h : heap) (depth : nat) (x : ref) :
  reachable h → returned (newick depth h x) = false.
Proof.
  intros Hreach. destruct (reachable_inv h Hreach) as (_ & _ & Hu).
  revert x. induction depth as [|d IH]; intros x; simpl; [done|].
  unfold deref. destruct (h !! x) as [s|] eqn:Hs; simpl; [|done].
  assert (height h x = Raise AttributeError) as Hheight.
  { apply (height_without_vmax h x s Hs). apply (Hu x s Hs). }
  destruct (children s) as [|c cs].
  - by rewrite Hheight.
  - apply bind_not_returned. by apply newick_items_not_returned.
Qed.

(** [newick_not_returned] on the root [B] of [pair_store]. *)
Lemma newick_not_returned_witness :
  returned (newick 1000 pair_store 2) = false.
Proof.
  apply (newick_not_returned pair_store 1000 2), pair_store_reachable.
Defined.

(** [_add_pixel] and [_merge] read [self.values] before they write
    anything: in a store whose children links are closed they raise
    [RecursionError] on every object, so pixels are never added and
    structures never merged. *)
Theorem mutators_raise (depth : nat) (h : heap) (x other : ref)
    (index : coord) (value : Z) :
  closed h → is_Some (h !! x) → is_Some (h !! other) →
  _add_pixel depth x index value h = Raise RecursionError
  ∧ _merge depth x other h = Raise RecursionError.
Proof.
  intros Hcl Hx Ho. unfold _add_pixel, _merge.
  destruct (indices_closed depth h x Hcl Hx) as [Hok | ->]; [|done].
  apply returned_Ok in Hok as [l ->]. simpl.
  split; [by rewrite values_closed|].
  destruct (indices_closed depth h other Hcl Ho) as [Hok | ->]; [|done].
  apply returned_Ok in Hok as [l' ->]. simpl. by rewrite values_closed.
Qed.

(** [mutators_raise] on the leaves of [pair_store]. *)
Lemma mutators_raise_witness :
  _add_pixel 1000 0 [0; 1] 4 pair_store = Raise RecursionError
  ∧ _merge 1000 0 1 pair_store = Raise RecursionError.
Proof.
  apply (mutators_raise 1000 pair_store 0 1 [0; 1] 4).
  - apply closedb_closed. vm_compute. reflexivity.
  - vm_compute. eexists. reflexivity.
  - vm_compute. eexists. reflexivity.
Defined.

(** ** More on the constructor *)

(** [adopt] returns only if every child is an object of the store. *)
Lemma adopt_in_store (self : ref) (cs : list ref) (h h1 : heap) :
  adopt self cs h = Ok h1 → ∀ c, c ∈ cs → is_Some (h !! c).
Proof.
  revert h. induction cs as [|c' cs IH]; intros h Hadopt c Hc;
    [by apply elem_of_nil in Hc|].
  simpl in Hadopt. apply bind_Ok in Hadopt as (hm & Hset & Hadopt).
  unfold setattr in Hset. apply bind_Ok in Hset as (sc' & Hsc' & [= <-]).
  apply deref_Ok in Hsc'.
  apply elem_of_cons in Hc as [->|Hc]; [by eexists|].
  destruct (decide (c = c')) as [->|Hne]; [by eexists|].
  destruct (IH _ Hadopt c Hc) as [sc Hsc].
  rewrite lookup_insert_ne in Hsc by done. by eexists.
Qed.

(** The constructor adopts its children without looking at them: whatever
    parent a child had, it is replaced by the new object; the new object
    starts as a root with empty caches; no other object changes. *)
Theorem init_adopts_children (self : ref) (px : pixels) (cs : list ref)
    (idx : option Z) (h h' : heap) :
  h !! self = None → __init__ self px cs idx h = Ok h' →
  (∀ c, c ∈ cs →
     ∃ sc, h !! c = Some sc ∧ h' !! c = Some (with_parent (Some self) sc))
  ∧ (∀ y, y ≠ self → y ∉ cs → h' !! y = h !! y)
  ∧ (∃ s, h' !! self = Some s ∧ parent s = None ∧ children s = cs
       ∧ _level s = None ∧ _ancestor s = None).
Proof.
  intros Hfresh Hinit.
  apply init_Ok in Hinit
    as (h1 & new & Hadopt & -> & _ & Hp & Hcs & _ & _ & _ & Hl & Ha & _).
  pose proof (λ y, adopt_lookup self cs h h1 y Hadopt) as Hh1.
  split; [|split].
  - intros c Hc. specialize (Hh1 c).
    rewrite bool_decide_eq_true_2 in Hh1 by done.
    destruct (adopt_in_store _ _ _ _ Hadopt c Hc) as [sc Hsc].
    exists sc. split; [done|].
    rewrite lookup_insert_ne by congruence. by rewrite Hh1, Hsc.
  - intros y Hy Hycs. rewrite lookup_insert_ne by done.
    rewrite Hh1. by rewrite bool_decide_eq_false_2.
  - exists new. by rewrite lookup_insert_eq.
Qed.

(** [init_adopts_children] on the chain: building [A = 2] over [B = 1]
    writes the parent of [B] and leaves [C = 0] alone. *)
Lemma init_adopts_children_witness :
  ∃ h2 h3,
    h3 = the_store (__init__ 2 (OnePixel [2; 0] 5) [1%nat] (Some 2) h2)
    ∧ (∀ c, c ∈ [1%nat] →
         ∃ sc, h2 !! c = Some sc ∧ h3 !! c = Some (with_parent (Some 2%nat) sc))
    ∧ (∀ y, y ≠ 2%nat → y ∉ [1%nat] → h3 !! y = h2 !! y).
Proof.
  pose (h1 := the_store (__init__ 0 (OnePixel [0; 0] 9) [] (Some 0) ∅)).
  pose (h2 := the_store (__init__ 1 (OnePixel [1; 0] 7) [0%nat] (Some 1) h1)).
  exists h2, (the_store (__init__ 2 (OnePixel [2; 0] 5) [1%nat] (Some 2) h2)).
  split; [done|].
  destruct (init_adopts_children 2 (OnePixel [2; 0] 5) [1%nat] (Some 2) h2
              (the_store (__init__ 2 (OnePixel [2; 0] 5) [1%nat] (Some 2) h2)))
    as (H1 & H2 & _); [vm_compute; reflexivity..|].
  by split.
Defined.

(** [foldl Z.min] and [foldl Z.max] pick an element and bound them all. *)
Lemma foldl_min_spec (vs : list Z) (v0 : Z) :
  foldl Z.min v0 vs ∈ v0 :: vs
  ∧ ∀ v, v ∈ v0 :: vs → foldl Z.min v0 vs ≤ v.
Proof.
  revert v0. induction vs as [|x vs IH]; intros v0; simpl.
  - split; [left|]. intros v ->%list_elem_of_singleton. lia.
  - destruct (IH (Z.min v0 x)) as [Hin Hle]. split.
    + apply elem_of_cons in Hin as [Hin|Hin]; [|by do 2 right].
      rewrite Hin. destruct (Z.min_spec v0 x) as [[_ ->]|[_ ->]];
        [left | right; left].
    + intros v [->|[->|Hv]%elem_of_cons]%elem_of_cons.
      * specialize (Hle (Z.min v0 x)). etrans; [apply Hle; left|]. lia.
      * specialize (Hle (Z.min v0 x)). etrans; [apply Hle; left|]. lia.
      * apply Hle. by right.
Qed.

Lemma foldl_max_spec (vs : list Z) (v0 : Z) :
  foldl Z.max v0 vs ∈ v0 :: vs
  ∧ ∀ v, v ∈ v0 :: vs → v ≤ foldl Z.max v0 vs.
Proof.
  revert v0. induction vs as [|x vs IH]; intros v0; simpl.
  - split; [left|]. intros v ->%list_elem_of_singleton. lia.
  - destruct (IH (Z.max v0 x)) as [Hin Hle]. split.
    + apply elem_of_cons in Hin as [Hin|Hin]; [|by do 2 right].
      rewrite Hin. destruct (Z.max_spec v0 x) as [[_ ->]|[_ ->]];
        [right; left | left].
    + intros v [->|[->|Hv]%elem_of_cons]%elem_of_cons.
      * specialize (Hle (Z.max v0 x)). etrans; [|apply Hle; left]. lia.
      * specialize (Hle (Z.max v0 x)). etrans; [|apply Hle; left]. lia.
      * apply Hle. by right.
Qed.

(** The value range the constructor stores, for integer pixel values (the
    values of the model; among floats a NaN is not ordered, and [min] and
    [max] then bound nothing).  Built from a sequence, the object has
    [_vmin] and [_vmax], both taken from the sequence and bounding every
    own value; built from a scalar, it has [_vmax] and no [_vmin]: the
    scalar branch stores the minimum under [_vmin_sel]. *)
Theorem init_value_range (self : ref) (px : pixels) (cs : list ref)
    (idx : option Z) (h h' : heap) :
  __init__ self px cs idx h = Ok h' →
  ∃ s, h' !! self = Some s
    ∧ match px with
      | OnePixel _ v =>
        _vmin s = None ∧ _vmin_sel s = Some v ∧ _vmax s = v
      | ManyPixels _ vs =>
        _vmin_sel s = None
        ∧ ∃ lo, _vmin s = Some lo ∧ lo ∈ vs ∧ _vmax s ∈ vs
            ∧ ∀ v, v ∈ values_self s → lo ≤ v ≤ _vmax s
      end.
Proof.
  unfold __init__. intros H.
  apply bind_Ok in H as (h1 & _ & H).
  apply bind_Ok in H as (own & Hown & H).
  destruct own as [[[[ixs vs] vs1] vm] vx]. injection H as <-.
  eexists. split; [apply lookup_insert_eq|]. simpl.
  destruct px as [i v | ixs' vs'].
  - by injection Hown as <- <- <- <- <-.
  - destruct vs' as [|v0 vs']; [discriminate|].
    simpl in Hown. injection Hown as <- <- <- <- <-.
    destruct (foldl_min_spec vs' v0) as [Hmin Hle].
    destruct (foldl_max_spec vs' v0) as [Hmax Hge].
    split; [done|]. eexists. split; [done|].
    unfold values_self. simpl. split; [done|]. split; [done|].
    intros v Hv. split; [by apply Hle | by apply Hge].
Qed.

(** [init_value_range] on a leaf built from the values 4, 7, 2. *)
Lemma init_value_range_witness :
  ∃ s, the_store (__init__ 0 (ManyPixels [[0; 0]; [0; 1]; [0; 2]] [4; 7; 2])
                    [] None ∅) !! 0%nat = Some s
    ∧ _vmin_sel s = None
    ∧ ∃ lo, _vmin s = Some lo ∧ lo ∈ [4; 7; 2] ∧ _vmax s ∈ [4; 7; 2]
        ∧ ∀ v, v ∈ values_self s → lo ≤ v ≤ _vmax s.
Proof.
  apply (init_value_range 0 (ManyPixels [[0; 0]; [0; 1]; [0; 2]] [4; 7; 2])
           [] None ∅).
  vm_compute. reflexivity.
Defined.

(** ** More on [ancestor] *)



(** What the cache buys: once [ancestor] has returned the root for a node,
    asking the same node again returns the same root on the first test of
    the loop, however deep the node is, and writes nothing. *)
Theorem ancestor_again_one_turn (h : heap) (x r : ref) (n fuel : nat) :
  ancestors_cached h → climbs h x n r → is_root h r → (n ≤ fuel)%nat →
  ∃ h', ancestor fuel x h = Ok (Some r, h')
    ∧ ∀ fuel', (1 ≤ fuel')%nat → ancestor fuel' x h' = Ok (Some r, h').
Proof.
  intros Hc Hn Hr Hfuel. exists (ancestor_cached h x r).
  split; [by apply (ancestor_spec fuel h x r n)|].
  intros fuel' Hfuel'. destruct fuel' as [|fuel']; [lia|].
  destruct (climbs_in_store _ _ _ _ Hn) as [[s Hs] _].
  pose proof (ancestor_cached_self h x r s Hs) as Hx.
  pose proof (is_root_same_links _ _ _ (ancestor_cached_same_links h x r) Hr)
    as (sr & Hsr & Hpr).
  unfold ancestor. rewrite (deref_Some _ _ _ Hx). simpl.
  destruct (parent s) as [p|] eqn:Hp; simpl; rewrite Hp.
  - simpl. rewrite (deref_Some _ _ _ Hx). simpl.
    rewrite (deref_Some _ _ _ Hsr). simpl. rewrite Hpr. simpl.
    by rewrite (deref_Some _ _ _ Hx).
  - assert (is_root h x) as Hrx by (by exists s).
    by destruct (climbs_from_root _ _ _ _ Hrx Hn) as [_ ->].
Qed.

(** [ancestor_again_one_turn] on the node [C] of the chain, three links
    below its root. *)
Lemma ancestor_again_one_turn_witness :
  ∃ h', ancestor 3 0 chain_store = Ok (Some 3%nat, h')
    ∧ ∀ fuel', (1 ≤ fuel')%nat → ancestor fuel' 0 h' = Ok (Some 3%nat, h').
Proof.
  destruct (root_of_climbs 4 chain_store 0 3 3) as [Hn Hr];
    [vm_compute; reflexivity|].
  apply (ancestor_again_one_turn chain_store 0 3 3 3).
  - apply no_ancestor_cachedb_sound. vm_compute. reflexivity.
  - exact Hn.
  - exact Hr.
  - lia.
Defined.

(** ** More on [level] *)

(** In any store, sound or not: whenever [level] returns, it returns an
    integer, never [None]; and from then on every query on the same node
    returns that integer without a loop and without a write. *)
Theorem level_then_cached (fuel : nat) (h h' : heap) (x : ref)
    (l : option Z) :
  level fuel x h = Ok (l, h') →
  ∃ v, l = Some v ∧ ∀ fuel', level fuel' x h' = Ok (Some v, h').
Proof.
  intros H.
  destruct (level_returns_cached _ _ _ _ _ H) as (v & s' & -> & Hs' & Hv).
  exists v. split; [done|]. intros fuel'.
  by apply (level_cached_stable fuel' h' x s' v).
Qed.

(** [level_then_cached] on the node [C] of the levelled chain. *)
Lemma level_then_cached_witness :
  ∃ v, Some 3 = Some v
    ∧ ∀ fuel', level fuel' 0 (the_store (let* '(_, h') :=
                                           level 3 0 chain_levelled in Ok h'))
               = Ok (Some v, the_store (let* '(_, h') :=
                                          level 3 0 chain_levelled in Ok h')).
Proof.
  apply (level_then_cached 3 chain_levelled _ 0 (Some 3)).
  vm_compute. reflexivity.
Defined.

(** The loop of [level] on a chain without any cached level climbs past the
    root and reads [_level] on [None]. *)
Lemma level_loop_uncached (h : heap) (k : nat) :
  (∀ y s, h !! y = Some s → _level s = None) →
  ∀ (fuel : nat) (o r : ref) (diff : Z),
    climbs h o k r → is_root h r → (k + 2 ≤ fuel)%nat →
    level_loop fuel h (Some o) diff = Raise AttributeError.
Proof.
  intros Hnone. induction k as [|k IH]; intros fuel o r diff Hk Hr Hfuel;
    (destruct fuel as [|fuel]; [lia|]); simpl.
  - inversion Hk as [? s Hs|]; subst.
    rewrite (deref_Some _ _ _ Hs). simpl. rewrite (Hnone _ _ Hs).
    destruct Hr as (s' & Hs' & Hp). assert (s' = s) as -> by congruence.
    rewrite Hp. destruct fuel as [|fuel]; [lia|]. done.
  - apply climbs_S in Hk as (s & p & Hs & Hp & Hpk).
    rewrite (deref_Some _ _ _ Hs). simpl. rewrite (Hnone _ _ Hs), Hp.
    apply (IH fuel p r); [done..|lia].
Qed.

(** On a tree where no level is cached yet (as the constructor leaves it),
    [level] on any node that has a parent raises [AttributeError]: the walk
    finds no cached level, steps from the root to [None] and reads its
    [_level].  Only a root can be queried first. *)
Theorem level_uncached_raises (h : heap) (x r : ref) (n fuel : nat) :
  (∀ y s, h !! y = Some s → _level s = None) →
  climbs h x (S n) r → is_root h r → (n + 2 ≤ fuel)%nat →
  level fuel x h = Raise AttributeError.
Proof.
  intros Hnone Hn Hr Hfuel.
  apply climbs_S in Hn as (s & p & Hs & Hp & Hpn).
  destruct (climbs_in_store _ _ _ _ Hpn) as [[ps Hps] _].
  unfold level. rewrite (deref_Some _ _ _ Hs). simpl.
  rewrite (Hnone _ _ Hs), Hp. simpl.
  rewrite (deref_Some _ _ _ Hps). simpl. rewrite (Hnone _ _ Hps).
  by rewrite (level_loop_uncached h n Hnone fuel p r 1 Hpn Hr Hfuel).
Qed.

Lemma no_level_cachedb_sound (h : heap) :
  no_level_cachedb h = true → ∀ y s, h !! y = Some s → _level s = None.
Proof.
  intros Hb y s Hs.
  pose proof (all_objects_spec _ _ _ _ Hb Hs) as H. simpl in H.
  by apply bool_decide_eq_true_1 in H.
Qed.

(** [level_uncached_raises] on the node [B] of the chain as built, two
    links below the root. *)
Lemma level_uncached_raises_witness :
  level 3 1 chain_store = Raise AttributeError.
Proof.
  destruct (root_of_climbs 4 chain_store 1 3 2) as [Hn Hr];
    [vm_compute; reflexivity|].
  apply (level_uncached_raises chain_store 1 3 1 3).
  - apply no_level_cachedb_sound. vm_compute. reflexivity.
  - exact Hn.
  - exact Hr.
  - lia.
Defined.

(** ** What no call changes *)

Lemma same_data_refl (h : heap) : same_data h h.
Proof. by intros y. Qed.

Lemma same_data_trans (h1 h2 h3 : heap) :
  same_data h1 h2 → same_data h2 h3 → same_data h1 h3.
Proof. intros H1 H2 y. by rewrite H2. Qed.

Lemma same_data_sym (h h' : heap) : same_data h h' → same_data h' h.
Proof. intros H y. by rewrite H. Qed.

Lemma same_but_levels_same_data (h h' : heap) :
  same_but_levels h h' → same_data h h'.
Proof.
  intros H y. specialize (H y).
  apply (f_equal (fmap (with_ancestor None))) in H.
  destruct (h' !! y), (h !! y); exact H.
Qed.

Lemma setattr_ancestor_same_data (h h' : heap) (x : ref) (a : option ref) :
  setattr (with_ancestor a) x h = Ok h' → same_data h h'.
Proof.
  unfold setattr. intros H. apply bind_Ok in H as (s & Hs & [= <-]).
  apply deref_Ok in Hs. intros y. destruct (decide (x = y)) as [<-|Hne].
  - by rewrite lookup_insert_eq, Hs.
  - by rewrite lookup_insert_ne.
Qed.

Lemma ancestor_loop_same_data (fuel : nat) :
  ∀ (h h' : heap) (self : ref),
    ancestor_loop fuel self h = Ok h' → same_data h h'.
Proof.
  induction fuel as [|fuel IH]; intros h h' self; simpl; [done|].
  intros H. apply bind_Ok in H as (s & _ & H).
  apply bind_Ok in H as (a & _ & H).
  apply bind_Ok in H as (sa & _ & H).
  destruct (parent sa) as [p|]; [|injection H as <-; apply same_data_refl].
  apply bind_Ok in H as (h1 & Hset & H).
  eapply same_data_trans; [by eapply setattr_ancestor_same_data|].
  by eapply IH.
Qed.

(** [ancestor], in any store, writes nothing but [_ancestor] caches. *)
Lemma ancestor_same_data (fuel : nat) (h h' : heap) (x : ref)
    (r : option ref) :
  ancestor fuel x h = Ok (r, h') → same_data h h'.
Proof.
  unfold ancestor. intros H. apply bind_Ok in H as (s & _ & H).
  destruct (parent s) as [p|]; [|injection H as _ <-; apply same_data_refl].
  apply bind_Ok in H as (h1 & Hseed & H).
  apply bind_Ok in H as (h2 & Hloop & H).
  apply bind_Ok in H as (s2 & _ & [= _ <-]).
  eapply same_data_trans; [|by eapply ancestor_loop_same_data].
  destruct (_ancestor s); [injection Hseed as <-; apply same_data_refl|].
  by eapply setattr_ancestor_same_data.
Qed.

Lemma same_data_lookup (h h' : heap) (y : ref) (s : Structure) :
  same_data h h' → h !! y = Some s →
  ∃ s', h' !! y = Some s' ∧ uncached s' = uncached s.
Proof.
  intros H Hs. specialize (H y). rewrite Hs in H.
  destruct (h' !! y) as [s'|]; [|done].
  exists s'. split; [done|]. apply (inj Some). exact H.
Qed.

(** The fields two objects share when they differ in caches only. *)
Lemma uncached_fields (s s' : Structure) :
  uncached s' = uncached s →
  merge_level s' = merge_level s ∧ parent s' = parent s
  ∧ children s' = children s ∧ _indices s' = _indices s
  ∧ _values s' = _values s ∧ _vmax s' = _vmax s ∧ idx s' = idx s.
Proof.
  destruct s, s'. unfold uncached, with_level, with_ancestor. simpl.
  intros H. by inversion H.
Qed.

(** Every call other than the constructor leaves the store the same but
    for caches. *)
Lemma query_same_data (h h' : heap) :
  step h h' →
  same_data h h'
  ∨ ∃ self px cs idx, h !! self = None ∧ (∀ c, c ∈ cs → is_root h c)
      ∧ __init__ self px cs idx h = Ok h'.
Proof.
  destruct 1 as [h self px cs idx h' Hfresh Hroots Hinit
                | h depth x index value h' Hadd
                | h depth x other h' Hmerge
                | h fuel x r h' Hanc
                | h fuel x l h' Hlev
                | h depth fuel x array recursive a h' Hfill
                | h depth x subtree n h' Hnpix
                | h depth x subtree pk h' Hpeak].
  - right. by exists self, px, cs, idx.
  - pose proof (add_pixel_not_returned depth x index value h) as Hnot.
    by rewrite Hadd in Hnot.
  - pose proof (merge_not_returned depth x other h) as Hnot.
    by rewrite Hmerge in Hnot.
  - left. by eapply ancestor_same_data.
  - left. by eapply same_but_levels_same_data, level_same_but_levels.
  - left. by eapply same_but_levels_same_data, fill_footprint_same_but_levels.
  - left. apply get_npix_Ok in Hnpix as [-> _]. apply same_data_refl.
  - left. apply get_peak_Ok in Hpeak as [-> _]. apply same_data_refl.
Qed.

(** Objects are immutable but for their caches and their parent: across any
    call that returns, an object stays in the store with the same own
    pixels, children, [merge_level], [idx] and [_vmax]; and a parent, once
    set, is never changed. *)
Theorem step_keeps_objects (h h' : heap) (x : ref) (s : Structure) :
  step h h' → h !! x = Some s →
  ∃ s', h' !! x = Some s'
    ∧ indices_self s' = indices_self s ∧ values_self s' = values_self s
    ∧ children s' = children s ∧ merge_level s' = merge_level s
    ∧ idx s' = idx s ∧ _vmax s' = _vmax s
    ∧ ∀ p, parent s = Some p → parent s' = Some p.
Proof.
  intros Hstep Hs. unfold indices_self, values_self.
  destruct (query_same_data h h' Hstep)
    as [Hsame | (self & px & cs & idx & Hfresh & Hroots & Hinit)].
  - destruct (same_data_lookup _ _ _ _ Hsame Hs) as (s' & Hs' & Hun).
    destruct (uncached_fields _ _ Hun) as (? & Hp & ? & ? & ? & ? & ?).
    exists s'. repeat split; try done. intros p. by rewrite Hp.
  - apply init_Ok in Hinit as (h1 & new & Hadopt & -> & _).
    assert (x ≠ self) as Hne by congruence.
    rewrite lookup_insert_ne by done.
    rewrite (adopt_lookup _ _ _ _ x Hadopt), Hs.
    case_bool_decide as Hin; simpl.
    + eexists. split; [done|]. repeat split; try done.
      destruct (Hroots x Hin) as (s0 & Hs0 & Hp0).
      assert (s0 = s) as -> by congruence. intros p. by rewrite Hp0.
    + exists s. by repeat split.
Qed.

(** [step_keeps_objects] on the node [C] of the chain across a query of its
    ancestor. *)
Lemma step_keeps_objects_witness :
  ∃ s s', chain_store !! 0%nat = Some s
    ∧ the_store (let* '(_, h') := ancestor 3 0 chain_store in Ok h') !! 0%nat
      = Some s'
    ∧ indices_self s' = indices_self s ∧ values_self s' = values_self s
    ∧ children s' = children s ∧ merge_level s' = merge_level s
    ∧ idx s' = idx s ∧ _vmax s' = _vmax s
    ∧ ∀ p, parent s = Some p → parent s' = Some p.
Proof.
  destruct (chain_store !! 0%nat) as [s|] eqn:Hs; [|by vm_compute in Hs].
  destruct (step_keeps_objects chain_store
              (the_store (let* '(_, h') := ancestor 3 0 chain_store in Ok h'))
              0 s) as (s' & Hs' & H); [|exact Hs|by exists s, s'].
  apply (step_ancestor chain_store 3 0 (Some 3%nat)).
  vm_compute. reflexivity.
Defined.

(** In every store the class produces, an object is a leaf exactly when it
    has no [merge_level] attribute. *)
Theorem reachable_leaf_iff (h : heap) (x : ref) (s : Structure) :
  reachable h → h !! x = Some s →
  (is_leaf s = true ↔ merge_level s = None).
Proof.
  intros Hreach. revert x s.
  assert (∀ h h', same_data h h' →
            (∀ x s, h !! x = Some s →
               (is_leaf s = true ↔ merge_level s = None)) →
            ∀ x s, h' !! x = Some s →
              (is_leaf s = true ↔ merge_level s = None)) as Hkeep.
  { intros h1 h2 Hsame IH x s' Hs'.
    destruct (same_data_lookup _ _ _ _ (same_data_sym _ _ Hsame) Hs')
      as (s & Hs & Hun).
    destruct (uncached_fields _ _ Hun) as (Hml & _ & Hcs & _).
    specialize (IH x s Hs). unfold is_leaf in *. by rewrite <- Hml, <- Hcs. }
  induction Hreach as [| h self px cs idx h' _ IH Hfresh Hroots Hinit
                  | h depth x' index value h' _ _ Hadd
                  | h depth x' other h' _ _ Hmerge
                  | h fuel x' r h' _ IH Hanc
                  | h fuel x' l h' _ IH Hlev
                  | h depth fuel x' array recursive a h' _ IH Hfill
                  | h depth x' subtree n h' _ IH Hnpix
                  | h depth x' subtree pk h' _ IH Hpeak].
  - intros x s Hs. by rewrite lookup_empty in Hs.
  - intros x s Hs.
    apply init_Ok in Hinit as (h1 & new & Hadopt & -> & Hml & _ & Hcs & _).
    destruct (decide (x = self)) as [->|Hne].
    + rewrite lookup_insert_eq in Hs. injection Hs as <-.
      unfold is_leaf. rewrite Hml, Hcs. by destruct cs.
    + rewrite lookup_insert_ne in Hs by done.
      rewrite (adopt_lookup _ _ _ _ x Hadopt) in Hs.
      destruct (h !! x) as [s0|] eqn:Hs0; [|by case_bool_decide].
      specialize (IH x s0 Hs0).
      case_bool_decide; simpl in Hs; by injection Hs as <-.
  - pose proof (add_pixel_not_returned depth x' index value h) as Hnot.
    by rewrite Hadd in Hnot.
  - pose proof (merge_not_returned depth x' other h) as Hnot.
    by rewrite Hmerge in Hnot.
  - eapply Hkeep; [|exact IH]. by eapply ancestor_same_data.
  - eapply Hkeep; [|exact IH].
    by eapply same_but_levels_same_data, level_same_but_levels.
  - eapply Hkeep; [|exact IH].
    by eapply same_but_levels_same_data, fill_footprint_same_but_levels.
  - by apply get_npix_Ok in Hnpix as [-> _].
  - by apply get_peak_Ok in Hpeak as [-> _].
Qed.

(** [reachable_leaf_iff] on the branch [B] of [pair_store]. *)
Lemma reachable_leaf_iff_witness :
  ∃ s, pair_store !! 2%nat = Some s
    ∧ (is_leaf s = true ↔ merge_level s = None).
Proof.
  destruct (pair_store !! 2%nat) as [s|] eqn:Hs; [|by vm_compute in Hs].
  exists s. split; [done|].
  apply (reachable_leaf_iff pair_store 2 s); [|exact Hs].
  apply pair_store_reachable.
Defined.

(** ** [indices] is total where [values] is not *)

Lemma tall_weaken (h : heap) (n : nat) :
  ∀ (x : ref) (m : nat), tall h x n → (n ≤ m)%nat → tall h x m.
Proof.
  induction n as [|n IH]; intros x m Htall Hle; [inversion Htall|].
  inversion Htall as [? s ? Hs Hkids]; subst.
  destruct m as [|m]; [lia|].
  apply (tall_node h x s m Hs). intros c Hc. apply IH; [by apply Hkids|lia].
Qed.

(** A height that fits each of finitely many nodes fits them all. *)
Lemma tall_all (h : heap) (cs : list ref) :
  (∀ c, c ∈ cs → ∃ n, tall h c n) → ∃ n, ∀ c, c ∈ cs → tall h c n.
Proof.
  induction cs as [|c cs IH]; intros Hcs.
  - exists 0%nat. intros c Hc. by apply elem_of_nil in Hc.
  - destruct (Hcs c) as [n Hn]; [left|].
    destruct IH as [m Hm]; [intros c' Hc'; apply Hcs; by right|].
    exists (n `max` m)%nat. intros c' [->|Hc']%elem_of_cons.
    + apply (tall_weaken h n); [done|lia].
    + apply (tall_weaken h m); [by apply Hm|lia].
Qed.

(** Heights survive when the children links do. *)
Lemma tall_transfer (h h' : heap) (n : nat) :
  (∀ y s, h !! y = Some s →
     ∃ s', h' !! y = Some s' ∧ children s' = children s) →
  ∀ x, tall h x n → tall h' x n.
Proof.
  intros Hkeep. induction n as [|n IH]; intros x Htall; [inversion Htall|].
  inversion Htall as [? s ? Hs Hkids]; subst.
  destruct (Hkeep x s Hs) as (s' & Hs' & Hcs).
  apply (tall_node h' x s' n Hs'). intros c Hc. apply IH, Hkids.
  by rewrite <- Hcs.
Qed.

(** Below a node of height [n], a recursion limit of [n] is enough for
    [indices], and a larger one changes nothing. *)
Lemma tall_indices (h : heap) (n : nat) :
  ∀ x, tall h x n →
    ∃ l, ∀ depth, (n ≤ depth)%nat → indices depth h x = Ok l.
Proof.
  induction n as [|n IH]; intros x Htall; [inversion Htall|].
  inversion Htall as [? s ? Hs Hkids]; subst.
  assert (∀ cs, (∀ c, c ∈ cs → tall h c n) →
            ∃ subs, ∀ d acc, (n ≤ d)%nat →
              gather (indices d h) cs acc = Ok (acc ++ subs)) as Hgather.
  { induction cs as [|c cs IHcs]; intros Hcs.
    - exists []. intros d acc _. simpl. by rewrite app_nil_r.
    - destruct (IH c) as [l Hl]; [apply Hcs; left|].
      destruct IHcs as [subs Hsubs]; [intros c' Hc'; apply Hcs; by right|].
      exists (l ++ subs). intros d acc Hd. simpl.
      rewrite (Hl d Hd). simpl. rewrite (Hsubs d _ Hd).
      by rewrite app_assoc. }
  destruct (Hgather (children s) Hkids) as [subs Hsubs].
  exists (indices_self s ++ subs). intros depth Hdepth.
  destruct depth as [|d]; [lia|]. simpl.
  rewrite (deref_Some _ _ _ Hs). simpl.
  rewrite (Hsubs d []); [done|lia].
Qed.

(** Every object of a store the class produces heads a finite tree of
    children. *)
Lemma reachable_tall (h : heap) :
  reachable h → ∀ x s, h !! x = Some s → ∃ n, tall h x n.
Proof.
  assert (∀ h h', same_data h h' →
            (∀ x s, h !! x = Some s → ∃ n, tall h x n) →
            ∀ x s, h' !! x = Some s → ∃ n, tall h' x n) as Hkeep.
  { intros h1 h2 Hsame IH x s' Hs'.
    destruct (same_data_lookup _ _ _ _ (same_data_sym _ _ Hsame) Hs')
      as (s & Hs & _).
    destruct (IH x s Hs) as [n Hn]. exists n.
    apply (tall_transfer h1 h2 n); [|done].
    intros y sy Hy.
    destruct (same_data_lookup _ _ _ _ Hsame Hy) as (sy' & Hsy' & Hun).
    destruct (uncached_fields _ _ Hun) as (_ & _ & Hcs & _). eauto. }
  induction 1 as [| h self px cs idx h' _ IH Hfresh Hroots Hinit
                  | h depth x' index value h' _ _ Hadd
                  | h depth x' other h' _ _ Hmerge
                  | h fuel x' r h' _ IH Hanc
                  | h fuel x' l h' _ IH Hlev
                  | h depth fuel x' array recursive a h' _ IH Hfill
                  | h depth x' subtree n h' _ IH Hnpix
                  | h depth x' subtree pk h' _ IH Hpeak].
  - intros x s Hs. by rewrite lookup_empty in Hs.
  - apply init_Ok in Hinit as (h1 & new & Hadopt & -> & _ & _ & Hcs & _).
    assert (∀ y s, h !! y = Some s →
              ∃ s', <[self := new]> h1 !! y = Some s'
                ∧ children s' = children s) as Hold.
    { intros y s Hs. assert (y ≠ self) as Hne by congruence.
      rewrite lookup_insert_ne by done.
      rewrite (adopt_lookup _ _ _ _ y Hadopt), Hs.
      case_bool_decide; simpl; eauto. }
    intros x s Hs. destruct (decide (x = self)) as [->|Hne].
    + rewrite lookup_insert_eq in Hs. injection Hs as <-.
      destruct (tall_all (<[self := new]> h1) cs) as [n Hn].
      { intros c Hc. destruct (Hroots c Hc) as (sc & Hsc & _).
        destruct (IH c sc Hsc) as [n Hn]. exists n.
        by apply (tall_transfer h _ n). }
      exists (S n). apply (tall_node _ self new n); [apply lookup_insert_eq|].
      by rewrite Hcs.
    + rewrite lookup_insert_ne in Hs by done.
      rewrite (adopt_lookup _ _ _ _ x Hadopt) in Hs.
      destruct (h !! x) as [s0|] eqn:Hs0; [|by case_bool_decide].
      destruct (IH x s0 Hs0) as [n Hn]. exists n.
      by apply (tall_transfer h _ n).
  - pose proof (add_pixel_not_returned depth x' index value h) as Hnot.
    by rewrite Hadd in Hnot.
  - pose proof (merge_not_returned depth x' other h) as Hnot.
    by rewrite Hmerge in Hnot.
  - eapply Hkeep; [|exact IH]. by eapply ancestor_same_data.
  - eapply Hkeep; [|exact IH].
    by eapply same_but_levels_same_data, level_same_but_levels.
  - eapply Hkeep; [|exact IH].
    by eapply same_but_levels_same_data, fill_footprint_same_but_levels.
  - by apply get_npix_Ok in Hnpix as [-> _].
  - by apply get_peak_Ok in Hpeak as [-> _].
Qed.

(** In every store the class produces, [indices] returns on every object
    once the recursion limit is large enough, and the list it returns does
    not depend on the limit. *)
Theorem indices_total (h : heap) (x : ref) (s : Structure) :
  reachable h → h !! x = Some s →
  ∃ (d : nat) (l : list coord),
    ∀ depth, (d ≤ depth)%nat → indices depth h x = Ok l.
Proof.
  intros Hreach Hs. destruct (reachable_tall h Hreach x s Hs) as [n Hn].
  destruct (tall_indices h n x Hn) as [l Hl]. by exists n, l.
Qed.

(** [indices_total] on the root of the chain. *)
Lemma indices_total_witness :
  ∃ (d : nat) (l : list coord),
    ∀ depth, (d ≤ depth)%nat → indices depth chain_store 3 = Ok l.
Proof.
  destruct (chain_store !! 3%nat) as [s|] eqn:Hs; [|by vm_compute in Hs].
  apply (indices_total chain_store 3 s); [|exact Hs].
  apply chain_store_reachable.
Defined.

(** ** What [fill_footprint] leaves alone *)

(** The loop of [fill_footprint] writes at the indices it is given only, and
    only at cells the array has. *)
Lemma stamp_outside (fuel : nat) (x : ref) (idxs : list coord) :
  ∀ (array a : ndarray) (h h' : heap),
    stamp fuel x idxs array h = Ok (a, h') →
    (∀ i, i ∉ idxs → a !! i = array !! i) ∧ dom a = dom array.
Proof.
  induction idxs as [|j idxs IH]; intros array a h h'; simpl.
  - by intros [= <- _].
  - intros H. apply bind_Ok in H as ([l h1] & _ & H).
    apply bind_Ok in H as (v & _ & H).
    apply bind_Ok in H as (array1 & Hset & H).
    unfold array_set in Hset.
    destruct (array !! j) as [old|] eqn:Hold; [|done]. injection Hset as <-.
    destruct (IH _ _ _ _ H) as [Hout Hdom]. split.
    + intros i [Hij Hi]%not_elem_of_cons.
      rewrite (Hout i Hi). by rewrite lookup_insert_ne.
    + rewrite Hdom. apply dom_insert_lookup_L. by eexists.
Qed.

(** One unfolding of the recursive methods. *)
Lemma fill_footprint_S (d fuel : nat) (x : ref) (array : ndarray)
    (recursive : bool) (h : heap) :
  fill_footprint (S d) fuel x array recursive h =
  let* s := deref h x in
  let* '(array1, h1) :=
    if recursive
    then fill_children (λ child a, fill_footprint d fuel child a true)
                       (children s) array h
    else Ok (array, h) in
  let* idxs := indices d h1 x in
  stamp fuel x idxs array1 h1.
Proof. reflexivity. Qed.

Lemma indices_S (d : nat) (h : heap) (x : ref) :
  indices (S d) h x =
  let* s := deref h x in
  let* sub_indices := gather (indices d h) (children s) [] in
  Ok (indices_self s ++ sub_indices).
Proof. reflexivity. Qed.

(** [fill_footprint], children included, writes inside the full-subtree
    indices of the node only. *)
Lemma fill_footprint_outside (fuel d : nat) :
  ∀ (x : ref) (array a : ndarray) (recursive : bool) (h h' : heap)
    (idxs : list coord),
    fill_footprint (S d) fuel x array recursive h = Ok (a, h') →
    indices d h x = Ok idxs →
    (∀ i, i ∉ idxs → a !! i = array !! i) ∧ dom a = dom array.
Proof.
  induction d as [|d IH]; intros x array a recursive h h' idxs Hfill Hidxs;
    [done|].
  pose proof Hidxs as Hidxs'. rewrite indices_S in Hidxs'.
  apply bind_Ok in Hidxs' as (s & Hs & Hg).
  apply bind_Ok in Hg as (flat & Hflat & [= <-]).
  apply gather_Ok in Hflat as (subs & Hsubs & ->). simpl.
  rewrite fill_footprint_S, Hs in Hfill. cbn [bind] in Hfill.
  apply bind_Ok in Hfill as ([array1 h1] & Hkids & Hfill).
  apply bind_Ok in Hfill as (idxs1 & Hidxs1 & Hstamp).
  assert (∀ cs subs arrayk hk,
            Forall2 (λ c sub, indices d h c = Ok sub) cs subs →
            same_but_levels h hk →
            fill_children (λ child a0, fill_footprint (S d) fuel child a0 true)
              cs arrayk hk = Ok (array1, h1) →
            same_but_levels h h1
            ∧ (∀ i, i ∉ concat subs → array1 !! i = arrayk !! i)
            ∧ dom array1 = dom arrayk) as Hchildren.
  { induction cs as [|c cs IHcs]; intros subs' arrayk hk Hsubs' Hk Hkids'.
    - cbn [fill_children] in Hkids'. by injection Hkids' as <- <-.
    - cbn [fill_children] in Hkids'.
      apply bind_Ok in Hkids' as ([array2 h2] & Hc & Hkids').
      inversion Hsubs' as [|? sub ? subs'' Hsub Hsubs'']; subst.
      rewrite <- (indices_same_but_levels d h hk Hk) in Hsub.
      destruct (IH _ _ _ _ _ _ _ Hc Hsub) as [Hcout Hcdom].
      pose proof (fill_footprint_same_but_levels _ _ _ _ _ _ _ _ Hc) as Hs2.
      destruct (IHcs subs'' array2 h2 Hsubs'') as (Hs1 & Hout & Hdom);
        [by eapply same_but_levels_trans|done|].
      split; [done|]. split.
      + intros i Hi. simpl in Hi. apply not_elem_of_app in Hi as [Hi1 Hi2].
        rewrite (Hout i Hi2). by apply Hcout.
      + by rewrite Hdom. }
  assert (same_but_levels h h1
          ∧ (∀ i, i ∉ concat subs → array1 !! i = array !! i)
          ∧ dom array1 = dom array) as (Hsame & Hkout & Hkdom).
  { destruct recursive.
    - by apply (Hchildren (children s) subs array h);
        [|apply same_but_levels_refl|].
    - injection Hkids as <- <-. split; [apply same_but_levels_refl|done]. }
  rewrite (indices_same_but_levels (S d) h h1 Hsame) in Hidxs1.
  rewrite Hidxs in Hidxs1. injection Hidxs1 as <-.
  destruct (stamp_outside _ _ _ _ _ _ _ Hstamp) as [Hout Hdom].
  split; [|by rewrite Hdom].
  intros i Hi. rewrite (Hout i Hi). apply Hkout.
  intros Hin. apply Hi. apply elem_of_app. by right.
Qed.

(** The coordinates listed by [coords] are those inside the shape. *)
Lemma elem_of_coords (shape : list nat) :
  ∀ i, i ∈ coords shape ↔ in_shape shape i.
Proof.
  unfold in_shape. induction shape as [|n shape IH]; intros i; simpl.
  - rewrite list_elem_of_singleton. split; [intros ->; constructor|].
    by inversion 1.
  - rewrite list_elem_of_bind. split.
    + intros (k & Hi & Hk). apply list_elem_of_fmap in Hi as (i' & -> & Hi').
      apply list_elem_of_fmap in Hk as (m & -> & Hm).
      apply elem_of_seq in Hm. constructor; [lia|]. by apply IH.
    + inversion 1 as [|? k ? i' Hk Hi']; subst.
      exists k. split.
      * apply list_elem_of_fmap. exists i'. split; [done|]. by apply IH.
      * apply list_elem_of_fmap. exists (Z.to_nat k). split; [lia|].
        apply elem_of_seq. lia.
Qed.

Lemma full_has_shape (shape : list nat) (v : Z) :
  has_shape (full shape v) shape.
Proof.
  intros i. rewrite <- elem_of_coords. unfold full. split.
  - intros [v' Hv']. apply elem_of_list_to_map_2 in Hv'.
    by apply list_elem_of_fmap in Hv' as (i' & [= -> ->] & Hi').
  - intros Hi.
    destruct (list_to_map ((λ i, (i, v)) <$> coords shape) !! i)
      as [v'|] eqn:Hv'; [done|].
    apply not_elem_of_list_to_map_2 in Hv'. destruct Hv'.
    apply list_elem_of_fmap. exists (i, v). split; [done|].
    by apply (list_elem_of_fmap_2 (λ j : coord, (j, v))).
Qed.

(** An array with the same cells has the same shape. *)
Lemma has_shape_dom (array a : ndarray) (shape : list nat) :
  dom a = dom array → has_shape array shape → has_shape a shape.
Proof.
  intros Hdom Hshape i. rewrite <- (Hshape i), <- !elem_of_dom.
  by rewrite Hdom.
Qed.

(** Where a raise comes from in a sequence of two steps. *)
Lemma bind_Raise {A B : Type} (m : outcome A) (k : A → outcome B)
    (e : exception) :
  bind m k = Raise e → m = Raise e ∨ ∃ a, m = Ok a ∧ k a = Raise e.
Proof.
  destruct m as [a|e'| |]; simpl; intros H; [|injection H as ->|done..].
  - right. by exists a.
  - by left.
Qed.

(** Reading and writing through a reference raise nothing. *)
Lemma deref_Raise (h : heap) (r : ref) (e : exception) :
  deref h r ≠ Raise e.
Proof. unfold deref. by destruct (h !! r). Qed.

Lemma setattr_Raise (f : Structure → Structure) (r : ref) (h : heap)
    (e : exception) :
  setattr f r h ≠ Raise e.
Proof. unfold setattr, deref. by destruct (h !! r). Qed.

(** What [level] can raise: [AttributeError] from the loop that walks past
    a root, and nothing about indices. *)
Lemma level_loop_Raise (fuel : nat) (h : heap) :
  ∀ (o : option ref) (diff : Z) (e : exception),
    level_loop fuel h o diff = Raise e → e = AttributeError.
Proof.
  induction fuel as [|fuel IH]; intros o diff e; simpl; [done|].
  destruct o as [o|]; [|by intros [= <-]].
  unfold deref. destruct (h !! o) as [so|]; simpl; [|done].
  destruct (_level so); [done|]. apply IH.
Qed.

Lemma level_Raise (fuel : nat) (x : ref) (h : heap) (e : exception) :
  level fuel x h = Raise e → e = AttributeError ∨ e = TypeError.
Proof.
  unfold level. intros H.
  apply bind_Raise in H as [H | (s & _ & H)]; [by apply deref_Raise in H|].
  apply bind_Raise in H as [H | (h1 & _ & H)].
  - destruct (_level s); [done|].
    destruct (parent s) as [p|]; [|by apply setattr_Raise in H].
    apply bind_Raise in H as [H | (ps & _ & H)]; [by apply deref_Raise in H|].
    destruct (_level ps); [by apply setattr_Raise in H|].
    apply bind_Raise in H as [H | ([obj diff] & _ & H)];
      [left; by apply level_loop_Raise in H|].
    apply bind_Raise in H as [H | (so & _ & H)]; [by apply deref_Raise in H|].
    apply bind_Raise in H as [H | (l & _ & H)];
      [destruct (_level so); [done|]; injection H as <-; by right|].
    apply bind_Raise in H as [H | (h2 & _ & H)];
      [by apply setattr_Raise in H|].
    apply bind_Raise in H as [H | (s1 & _ & H)]; [by apply deref_Raise in H|].
    apply bind_Raise in H as [H | (p1 & _ & H)];
      [destruct (parent s1); [done|]; injection H as <-; by left|].
    apply bind_Raise in H as [H | (l1 & _ & H)];
      [destruct (_level s1); [done|]; injection H as <-; by right|].
    by apply setattr_Raise in H.
  - apply bind_Raise in H as [H | (s' & _ & H)]; [|done].
    by apply deref_Raise in H.
Qed.

(** With indices inside the shape of the array, no write of
    [fill_footprint] is out of bounds. *)
Lemma stamp_no_IndexError (fuel : nat) (x : ref) (shape : list nat)
    (idxs : list coord) :
  ∀ (array : ndarray) (h : heap),
    has_shape array shape → Forall (in_shape shape) idxs →
    stamp fuel x idxs array h ≠ Raise IndexError.
Proof.
  induction idxs as [|j idxs IH]; intros array h Hshape Hin; simpl; [done|].
  inversion Hin as [|? ? Hj Hrest]; subst. intros H.
  apply bind_Raise in H as [H | ([l h1] & Hlevel & H)].
  { by apply level_Raise in H as [?|?]. }
  apply bind_Raise in H as [H | (v & Hv & H)]; [by destruct l|].
  destruct (proj2 (Hshape j) Hj) as [old Hold].
  unfold array_set in H. rewrite Hold in H. simpl in H.
  revert H. apply IH; [|done].
  apply (has_shape_dom array); [|done]. apply dom_insert_lookup_L. by eexists.
Qed.

Lemma fill_footprint_no_IndexError (fuel : nat) (shape : list nat)
    (d : nat) :
  ∀ (x : ref) (array : ndarray) (recursive : bool) (h : heap)
    (idxs : list coord),
    has_shape array shape → indices d h x = Ok idxs →
    Forall (in_shape shape) idxs →
    fill_footprint (S d) fuel x array recursive h ≠ Raise IndexError.
Proof.
  induction d as [|d IH]; intros x array recursive h idxs Hshape Hidxs Hin;
    [done|].
  pose proof Hidxs as Hidxs'. rewrite indices_S in Hidxs'.
  apply bind_Ok in Hidxs' as (s & Hs & Hg).
  apply bind_Ok in Hg as (flat & Hflat & [= <-]).
  apply gather_Ok in Hflat as (subs & Hsubs & ->).
  apply Forall_app in Hin as [Hown Hin]. simpl in Hin.
  rewrite fill_footprint_S, Hs. cbn [bind]. intros H.
  assert (∀ cs subs' arrayk hk,
            Forall2 (λ c sub, indices d h c = Ok sub) cs subs' →
            Forall (in_shape shape) (concat subs') →
            has_shape arrayk shape → same_but_levels h hk →
            fill_children (λ child a0, fill_footprint (S d) fuel child a0 true)
              cs arrayk hk ≠ Raise IndexError
            ∧ ∀ array1 h1,
                fill_children
                  (λ child a0, fill_footprint (S d) fuel child a0 true)
                  cs arrayk hk = Ok (array1, h1) →
                has_shape array1 shape ∧ same_but_levels h h1) as Hchildren.
  { clear H. induction cs as [|c cs IHcs];
      intros subs' arrayk hk Hsubs' Hin' Hk Hsame; cbn [fill_children].
    - split; [done|]. by intros array1 h1 [= <- <-].
    - inversion Hsubs' as [|? sub ? subs'' Hsub Hsubs'']; subst.
      simpl in Hin'. apply Forall_app in Hin' as [Hinsub Hinrest].
      rewrite <- (indices_same_but_levels d h hk Hsame) in Hsub.
      assert (∀ a2 h2, fill_footprint (S d) fuel c arrayk true hk
                       = Ok (a2, h2) →
                has_shape a2 shape ∧ same_but_levels h h2) as Hstep.
      { intros a2 h2 Hc.
        destruct (fill_footprint_outside _ _ _ _ _ _ _ _ _ Hc Hsub)
          as [_ Hdom].
        split; [by apply (has_shape_dom arrayk)|].
        eapply same_but_levels_trans; [exact Hsame|].
        by eapply fill_footprint_same_but_levels. }
      split.
      + intros Hr. apply bind_Raise in Hr as [Hr | ([a2 h2] & Hc & Hr)].
        * by apply (IH c arrayk true hk sub).
        * destruct (Hstep a2 h2 Hc) as [Hshape2 Hsame2].
          by destruct (IHcs subs'' a2 h2 Hsubs'' Hinrest Hshape2 Hsame2).
      + intros array1 h1 Hok.
        apply bind_Ok in Hok as ([a2 h2] & Hc & Hok).
        destruct (Hstep a2 h2 Hc) as [Hshape2 Hsame2].
        destruct (IHcs subs'' a2 h2 Hsubs'' Hinrest Hshape2 Hsame2)
          as [_ Hrest].
        by apply Hrest. }
  apply bind_Raise in H as [H | ([array1 h1] & Hkids & H)].
  - destruct recursive; [|done].
    by destruct (Hchildren (children s) subs array h Hsubs Hin Hshape
                   (same_but_levels_refl h)).
  - assert (has_shape array1 shape ∧ same_but_levels h h1)
      as [Hshape1 Hsame].
    { destruct recursive.
      - destruct (Hchildren (children s) subs array h Hsubs Hin Hshape
                    (same_but_levels_refl h)) as [_ Hok].
        by apply Hok.
      - injection Hkids as <- <-. split; [done|apply same_but_levels_refl]. }
    rewrite (indices_same_but_levels (S d) h h1 Hsame), Hidxs in H.
    cbn [bind] in H.
    refine (stamp_no_IndexError fuel x shape _ array1 h1 Hshape1 _ H).
    apply Forall_app. by split.
Qed.

(** For an array of a given shape and a node whose full-subtree indices are
    all coordinates inside that shape (one component per axis, counted from
    the origin): [fill_footprint], with [recursive] true or false, raises
    no [IndexError]; and whenever it returns, every cell outside the
    full-subtree indices of the node holds what it held before, and the
    array keeps its shape. *)
Theorem fill_footprint_frame (fuel d : nat) (x : ref) (array : ndarray)
    (recursive : bool) (h : heap) (idxs : list coord)
    (shape : list nat) :
  has_shape array shape →
  indices d h x = Ok idxs → Forall (in_shape shape) idxs →
  fill_footprint (S d) fuel x array recursive h ≠ Raise IndexError
  ∧ ∀ (a : ndarray) (h' : heap),
      fill_footprint (S d) fuel x array recursive h = Ok (a, h') →
      (∀ i, i ∉ idxs → a !! i = array !! i) ∧ has_shape a shape.
Proof.
  intros Hshape Hidxs Hin.
  split; [by apply (fill_footprint_no_IndexError fuel shape d _ _ _ _ idxs)|].
  intros a h' Hfill.
  destruct (fill_footprint_outside _ _ _ _ _ _ _ _ _ Hfill Hidxs)
    as [Hout Hdom].
  split; [done|]. by apply (has_shape_dom array).
Qed.

(** [fill_footprint_frame] on the leaf [L1] of [pair_levelled] and a 3 by 3
    array of zeros: the call returns, and writes no cell but (0,0). *)
Lemma fill_footprint_frame_witness :
  ∃ (a : ndarray) (h' : heap),
    fill_footprint 3 5 0 (full [3; 3]%nat 0) true pair_levelled = Ok (a, h')
    ∧ (∀ i, i ∉ [[0; 0]] → a !! i = full [3; 3]%nat 0 !! i)
    ∧ has_shape a [3; 3]%nat.
Proof.
  destruct (fill_footprint 3 5 0 (full [3; 3]%nat 0) true pair_levelled)
    as [[a h']| | |] eqn:H; [|by vm_compute in H..].
  exists a, h'. split; [done|].
  destruct (fill_footprint_frame 5 2 0 (full [3; 3]%nat 0) true
              pair_levelled [[0; 0]] [3; 3]%nat) as [_ Hframe].
  - apply full_has_shape.
  - vm_compute. reflexivity.
  - repeat constructor; lia.
  - by apply (Hframe a h').
Defined.

(** ** The array [fill_footprint] leaves when the level caches are sound *)

(** The loop of [level], when it returns: it stopped at a node with a cached
    level, having counted the links it climbed. *)
Lemma level_loop_Ok (h : heap) (k : nat) :
  levels_cached h →
  ∀ (fuel : nat) (o r o' : ref) (diff d' : Z),
    climbs h o k r → is_root h r →
    level_loop fuel h (Some o) diff = Ok (o', d') →
    ∃ (so' : Structure) (l : Z) (j : nat),
      h !! o' = Some so' ∧ _level so' = Some l
      ∧ d' = diff + Z.of_nat j ∧ l + Z.of_nat j = Z.of_nat k.
Proof.
  intros Hc. induction k as [|k IH]; intros fuel o r o' diff d' Hk Hr Hloop;
    (destruct fuel as [|fuel]; [done|]); simpl in Hloop.
  - inversion Hk as [? s Hs|]; subst.
    rewrite (deref_Some _ _ _ Hs) in Hloop. simpl in Hloop.
    destruct (_level s) as [l|] eqn:Hl.
    + injection Hloop as <- <-. exists s, l, 0%nat.
      split; [done|]. split; [done|]. split; [lia|].
      rewrite (Hc r s l 0%nat r Hs Hl Hk Hr). lia.
    + destruct Hr as (s' & Hs' & Hp). assert (s' = s) as -> by congruence.
      rewrite Hp in Hloop. by destruct fuel.
  - pose proof Hk as Hk'. apply climbs_S in Hk' as (s & p & Hs & Hp & Hpk).
    rewrite (deref_Some _ _ _ Hs) in Hloop. simpl in Hloop.
    destruct (_level s) as [l|] eqn:Hl.
    + injection Hloop as <- <-. exists s, l, 0%nat.
      split; [done|]. split; [done|]. split; [lia|].
      rewrite (Hc o s l (S k) r Hs Hl Hk Hr). lia.
    + rewrite Hp in Hloop.
      destruct (IH fuel p r o' (diff + 1) d' Hpk Hr Hloop)
        as (so' & l & j & Hso' & Hl' & -> & Hj).
      exists so', l, (S j). split; [done|]. split; [done|]. split; lia.
Qed.

(** With sound level caches, whenever [level] returns it returns the number
    of parent links up to the root, and leaves [level_backfilled]; the trunk
    need not be levelled for that. *)
Lemma level_Ok_spec (fuel : nat) (h h' : heap) (x r : ref) (n : nat)
    (l : option Z) :
  levels_cached h → climbs h x n r → is_root h r →
  level fuel x h = Ok (l, h') →
  l = Some (Z.of_nat n) ∧ h' = level_backfilled h x (Z.of_nat n).
Proof.
  intros Hc Hn Hr H. unfold level in H. unfold level_backfilled.
  destruct (climbs_in_store _ _ _ _ Hn) as [[s Hs] _].
  rewrite (deref_Some _ _ _ Hs) in H. rewrite Hs. simpl in H.
  destruct (_level s) as [l0|] eqn:Hl; simpl in H.
  { rewrite (deref_Some _ _ _ Hs) in H. simpl in H. rewrite Hl in H.
    injection H as <- <-. by rewrite (Hc x s l0 n r Hs Hl Hn Hr). }
  destruct (parent s) as [p|] eqn:Hp.
  - destruct n as [|n]; [parented Hn Hr|].
    pose proof Hn as Hn'.
    apply climbs_S in Hn' as (s' & p' & Hs' & Hp' & Hpn).
    assert (s' = s) as -> by congruence. assert (p' = p) as -> by congruence.
    destruct (climbs_in_store _ _ _ _ Hpn) as [[ps Hps] _].
    rewrite (deref_Some _ _ _ Hps) in H. rewrite Hps. simpl in H.
    assert (p ≠ x) as Hpx.
    { intros ->.
      destruct (climbs_root_unique _ _ _ _ _ _ Hn Hr Hpn Hr) as [? _]. lia. }
    destruct (_level ps) as [pl|] eqn:Hpl.
    + rewrite (Hc p ps pl n r Hps Hpl Hpn Hr) in H.
      rewrite (setattr_Some _ _ _ _ Hs) in H. simpl in H.
      unfold deref in H. rewrite lookup_insert_eq in H. simpl in H.
      injection H as <- <-.
      replace (Z.of_nat n + 1) with (Z.of_nat (S n)) by lia. done.
    + destruct (level_loop fuel h (Some p) 1) as [[o' d']| | |] eqn:Hloop;
        [|done..].
      destruct (level_loop_Ok h n Hc fuel p r o' 1 d' Hpn Hr Hloop)
        as (so' & l0 & j & Hso' & Hl' & -> & Hj).
      simpl in H. rewrite (deref_Some _ _ _ Hso') in H. simpl in H.
      rewrite Hl' in H. simpl in H.
      replace (l0 + (1 + Z.of_nat j)) with (Z.of_nat (S n)) in H by lia.
      rewrite (setattr_Some _ _ _ _ Hs) in H. simpl in H.
      unfold deref at 1 in H. rewrite lookup_insert_eq in H. simpl in H.
      rewrite Hp in H. simpl in H.
      unfold setattr, deref in H. rewrite lookup_insert_ne in H by done.
      rewrite Hps in H. simpl in H.
      rewrite lookup_insert_ne in H by done.
      rewrite lookup_insert_eq in H. simpl in H.
      injection H as <- <-.
      replace (Z.of_nat (S n) + -1) with (Z.of_nat (S n) - 1) by lia. done.
  - assert (is_root h x) as Hrx by (by exists s).
    destruct (climbs_from_root _ _ _ _ Hrx Hn) as [-> ->].
    rewrite (setattr_Some _ _ _ _ Hs) in H. simpl in H.
    unfold deref in H. rewrite lookup_insert_eq in H. simpl in H.
    by injection H as <- <-.
Qed.

(** [level] keeps a forest with sound level caches such. *)
Lemma level_keeps_sound (fuel : nat) (h h' : heap) (x : ref)
    (l : option Z) :
  forest h → levels_cached h → level fuel x h = Ok (l, h') →
  forest h' ∧ levels_cached h'.
Proof.
  intros Hf Hc H.
  assert (∃ s, h !! x = Some s) as [s Hs].
  { unfold level in H. apply bind_Ok in H as (s & Hs & _).
    apply deref_Ok in Hs. by exists s. }
  destruct (Hf x s Hs) as (n & r & Hn & Hr).
  destruct (level_Ok_spec _ _ _ _ _ _ _ Hc Hn Hr H) as [-> ->].
  split.
  - eapply forest_same_links; [apply level_backfilled_same_links|done].
  - by eapply level_keeps_levels.
Qed.

Lemma stamp_keeps_sound (fuel : nat) (x : ref) (idxs : list coord) :
  ∀ (array a : ndarray) (h h' : heap),
    forest h → levels_cached h → stamp fuel x idxs array h = Ok (a, h') →
    forest h' ∧ levels_cached h'.
Proof.
  induction idxs as [|i idxs IH]; intros array a h h' Hf Hc; simpl.
  - by intros [= _ <-].
  - intros H. apply bind_Ok in H as ([l h1] & Hlevel & H).
    apply bind_Ok in H as (v & _ & H).
    apply bind_Ok in H as (array1 & _ & H).
    destruct (level_keeps_sound _ _ _ _ _ Hf Hc Hlevel) as [Hf1 Hc1].
    by eapply IH.
Qed.

(** What every child call keeps, the loop over the children keeps. *)
Lemma fill_children_keeps (P : heap → Prop)
    (fill : ref → ndarray → heap → outcome (ndarray * heap)) :
  (∀ c a h a' h', P h → fill c a h = Ok (a', h') → P h') →
  ∀ cs a h a' h', P h → fill_children fill cs a h = Ok (a', h') → P h'.
Proof.
  intros Hfill. induction cs as [|c cs IH]; intros a h a' h' HP; simpl.
  - by intros [= _ <-].
  - intros H. apply bind_Ok in H as ([a1 h1] & Hc & H).
    eapply IH; [|exact H]. by eapply Hfill.
Qed.

Lemma fill_footprint_keeps_sound (depth fuel : nat) :
  ∀ (x : ref) (array a : ndarray) (recursive : bool) (h h' : heap),
    forest h ∧ levels_cached h →
    fill_footprint depth fuel x array recursive h = Ok (a, h') →
    forest h' ∧ levels_cached h'.
Proof.
  induction depth as [|d IH]; intros x array a recursive h h' Hsound;
    [done|].
  rewrite fill_footprint_S. intros H.
  apply bind_Ok in H as (s & _ & H).
  apply bind_Ok in H as ([array1 h1] & Hkids & H).
  apply bind_Ok in H as (idxs & _ & H).
  assert (forest h1 ∧ levels_cached h1) as [Hf1 Hc1].
  { destruct recursive; [|by injection Hkids as _ <-].
    refine (fill_children_keeps (λ h, forest h ∧ levels_cached h)
              _ _ _ _ _ _ _ Hsound Hkids).
    intros c a0 h0 a' h0' H0 Hc. by eapply IH. }
  by eapply stamp_keeps_sound.
Qed.

(** With sound level caches the array that [fill_footprint] leaves is known
    cell by cell: the number of parent links above the node on its
    full-subtree indices, the old content elsewhere. *)
Lemma fill_footprint_pointwise (d fuel : nat) (x r : ref)
    (array a : ndarray) (recursive : bool) (h h' : heap)
    (idxs : list coord) (n : nat) :
  forest h → levels_cached h →
  fill_footprint (S d) fuel x array recursive h = Ok (a, h') →
  indices d h x = Ok idxs → climbs h x n r → is_root h r →
  ∀ i, a !! i = if decide (i ∈ idxs) then Some (Z.of_nat n) else array !! i.
Proof.
  intros Hf Hc Hfill Hidxs Hn Hr i.
  destruct (decide (i ∈ idxs)) as [Hin|Hout];
    [|by apply (fill_footprint_outside _ _ _ _ _ _ _ _ _ Hfill Hidxs)].
  rewrite fill_footprint_S in Hfill.
  apply bind_Ok in Hfill as (s & _ & H).
  apply bind_Ok in H as ([array1 h1] & Hkids & H).
  apply bind_Ok in H as (idxs1 & Hidxs1 & H).
  assert (same_but_levels h h1 ∧ forest h1 ∧ levels_cached h1)
    as (Hsame & Hf1 & Hc1).
  { destruct recursive;
      [|injection Hkids as _ <-; split; [apply same_but_levels_refl|done]].
    split.
    - refine (fill_children_keeps (same_but_levels h)
                _ _ _ _ _ _ _ (same_but_levels_refl h) Hkids).
      intros c a0 h0 a' h0' H0 Hc0.
      eapply same_but_levels_trans; [exact H0|].
      by eapply fill_footprint_same_but_levels.
    - refine (fill_children_keeps (λ h, forest h ∧ levels_cached h)
                _ _ _ _ _ _ _ (conj Hf Hc) Hkids).
      intros c a0 h0 a' h0' H0 Hc0.
      by eapply fill_footprint_keeps_sound. }
  rewrite (indices_same_but_levels d h h1 Hsame), Hidxs in Hidxs1.
  injection Hidxs1 as <-.
  assert (idxs ≠ []) as Hne by (intros ->; by apply elem_of_nil in Hin).
  destruct (stamp_spec _ _ _ _ _ _ _ H Hne) as (v & _ & Hlevel & Hall & _).
  pose proof (same_but_levels_links _ _ Hsame) as Hlinks.
  destruct (level_Ok_spec fuel h1 h' x r n (Some v) Hc1
              (climbs_same_links _ _ _ _ _ Hlinks Hn)
              (is_root_same_links _ _ _ Hlinks Hr) Hlevel) as [[= ->] _].
  by apply Hall.
Qed.

(** The [recursive] flag of [fill_footprint] has no effect on the array.
    Take a forest with sound level caches, an array of a given shape and a
    node whose full-subtree indices are all coordinates inside that shape
    (one component per axis, counted from the origin).  Neither a call with
    [recursive=True] nor a call with [recursive=False] on that node raises
    [IndexError]; and from the same store and array the two leave the same
    array when both return: the level of the node (the number of parent
    links above it) on every pixel of its whole subtree, the children's
    pixels included, and the old content elsewhere.  What the children
    write with [recursive=True] is overwritten by the loop over
    [self.indices]. *)
Theorem fill_footprint_recursive_irrelevant (d fuel : nat) (x : ref)
    (array : ndarray) (h : heap) (idxs : list coord) (shape : list nat) :
  forest h → levels_cached h → has_shape array shape →
  indices d h x = Ok idxs → Forall (in_shape shape) idxs →
  (∀ recursive,
     fill_footprint (S d) fuel x array recursive h ≠ Raise IndexError)
  ∧ ∀ (a1 a2 : ndarray) (h1 h2 : heap),
      fill_footprint (S d) fuel x array true h = Ok (a1, h1) →
      fill_footprint (S d) fuel x array false h = Ok (a2, h2) →
      a1 = a2
      ∧ has_shape a1 shape
      ∧ ∃ (n : nat) (r : ref),
          climbs h x n r ∧ is_root h r
          ∧ ∀ i, a1 !! i
                 = if decide (i ∈ idxs) then Some (Z.of_nat n)
                   else array !! i.
Proof.
  intros Hf Hc Hshape Hidxs Hin.
  split;
    [intros recursive;
     by apply (fill_footprint_no_IndexError fuel shape d _ _ _ _ idxs)|].
  intros a1 a2 h1 h2 H1 H2.
  assert (∃ s, h !! x = Some s) as [s Hs].
  { rewrite fill_footprint_S in H2. apply bind_Ok in H2 as (s & Hs & _).
    apply deref_Ok in Hs. by exists s. }
  destruct (Hf x s Hs) as (n & r & Hn & Hr).
  pose proof (fill_footprint_pointwise _ _ _ _ _ _ _ _ _ _ _
                Hf Hc H1 Hidxs Hn Hr) as Ha1.
  pose proof (fill_footprint_pointwise _ _ _ _ _ _ _ _ _ _ _
                Hf Hc H2 Hidxs Hn Hr) as Ha2.
  split; [|split; [|by exists n, r]].
  - apply map_eq. intros i. by rewrite Ha1, Ha2.
  - destruct (fill_footprint_outside _ _ _ _ _ _ _ _ _ H1 Hidxs)
      as [_ Hdom].
    by apply (has_shape_dom array).
Qed.

(** [fill_footprint_recursive_irrelevant] on the root [B] of
    [pair_levelled] and a 3 by 3 array of sevens: both calls return, with
    the same array. *)
Lemma fill_footprint_recursive_irrelevant_witness :
  ∃ (a1 a2 : ndarray) (h1 h2 : heap),
    fill_footprint 3 5 2 (full [3; 3]%nat 7) true pair_levelled
    = Ok (a1, h1)
    ∧ fill_footprint 3 5 2 (full [3; 3]%nat 7) false pair_levelled
      = Ok (a2, h2)
    ∧ a1 = a2
    ∧ ∃ (n : nat) (r : ref),
        climbs pair_levelled 2 n r ∧ is_root pair_levelled r
        ∧ ∀ i, a1 !! i
               = if decide (i ∈ [[2; 2]; [0; 0]; [1; 1]])
                 then Some (Z.of_nat n) else full [3; 3]%nat 7 !! i.
Proof.
  destruct (fill_footprint 3 5 2 (full [3; 3]%nat 7) true pair_levelled)
    as [[a1 h1]| | |] eqn:H1; [|by vm_compute in H1..].
  destruct (fill_footprint 3 5 2 (full [3; 3]%nat 7) false pair_levelled)
    as [[a2 h2]| | |] eqn:H2; [|by vm_compute in H2..].
  exists a1, a2, h1, h2. split; [done|]. split; [done|].
  destruct (fill_footprint_recursive_irrelevant 2 5 2 (full [3; 3]%nat 7)
              pair_levelled [[2; 2]; [0; 0]; [1; 1]] [3; 3]%nat)
    as [_ Hsame].
  - apply forestb_forest. vm_compute. reflexivity.
  - apply levels_cachedb_sound. vm_compute. reflexivity.
  - apply full_has_shape.
  - vm_compute. reflexivity.
  - repeat constructor; lia.
  - destruct (Hsame a1 a2 h1 h2 H1 H2) as (Heq & _ & Hcells). by split.
Defined.

(** ** A cached level outlives the tree it was counted in *)

(** [level] is cached for good, and the constructor adopts a child without
    a look at its cache.  A root whose level has been queried (0, with
    sound caches) and that then becomes the child of a new branch still
    answers 0, and so does its new parent: the caches are no longer sound.
    The levels are right only if no level is queried before the tree is
    complete. *)
Theorem level_stale_after_adoption (fuel fuel' : nat) (h h1 h2 : heap)
    (x self : ref) (l : option Z) (px : pixels) (cs : list ref)
    (idx : option Z) :
  levels_cached h → is_root h x →
  level fuel x h = Ok (l, h1) →
  h1 !! self = None → x ∈ cs → __init__ self px cs idx h1 = Ok h2 →
  l = Some 0
  ∧ climbs h2 x 1 self ∧ is_root h2 self
  ∧ level fuel' x h2 = Ok (Some 0, h2)
  ∧ (∃ h3, level fuel' self h2 = Ok (Some 0, h3))
  ∧ ¬ levels_cached h2.
Proof.
  intros Hc Hrx Hlevel Hfresh Hx Hinit.
  pose proof Hrx as (s & Hs & Hp).
  destruct (level_Ok_spec fuel h h1 x x 0 l Hc (climbs_here h x s Hs) Hrx
              Hlevel) as [-> _].
  destruct (level_returns_cached _ _ _ _ _ Hlevel)
    as (v & s1 & [= <-] & Hs1 & Hv).
  assert (x ≠ self) as Hne by congruence.
  apply init_Ok in Hinit
    as (h' & new & Hadopt & -> & _ & Hpn & _ & _ & _ & _ & Hln & _).
  pose proof (adopt_lookup self cs h1 h' x Hadopt) as Hx'.
  rewrite bool_decide_eq_true_2, Hs1 in Hx' by done. simpl in Hx'.
  assert (<[self := new]> h' !! x = Some (with_parent (Some self) s1))
    as Hx2 by (by rewrite lookup_insert_ne).
  assert (<[self := new]> h' !! self = Some new) as Hself
    by apply lookup_insert_eq.
  assert (climbs (<[self := new]> h') x 1 self) as Hclimb.
  { eapply climbs_up; [exact Hx2|done|]. by eapply climbs_here. }
  assert (is_root (<[self := new]> h') self) as Hroot by (by exists new).
  split; [done|]. split; [done|]. split; [done|]. split; [|split].
  - by apply (level_cached_stable fuel' _ x (with_parent (Some self) s1) 0).
  - unfold level. rewrite (deref_Some _ _ _ Hself). simpl.
    rewrite Hln, Hpn. rewrite (setattr_Some _ _ _ _ Hself). simpl.
    unfold deref. rewrite lookup_insert_eq. simpl. by eexists.
  - intros Hc2.
    by pose proof (Hc2 x _ 0 1%nat self Hx2 Hv Hclimb Hroot).
Qed.

(** [level_stale_after_adoption] on a leaf queried before a branch is built
    over it. *)
Lemma level_stale_after_adoption_witness :
  ∃ h2 h3, level 1 0 h2 = Ok (Some 0, h2)
    ∧ level 1 1 h2 = Ok (Some 0, h3)
    ∧ climbs h2 0 1 1.
Proof.
  pose (h := the_store (__init__ 0 (OnePixel [0; 0] 9) [] (Some 0) ∅)).
  pose (h1 := the_store (let* '(_, h') := level 1 0 h in Ok h')).
  pose (h2 := the_store (__init__ 1 (OnePixel [1; 0] 7) [0%nat] (Some 1) h1)).
  destruct (level_stale_after_adoption 1 1 h h1 h2 0 1 (Some 0)
              (OnePixel [1; 0] 7) [0%nat] (Some 1))
    as (_ & Hclimb & _ & Hx & [h3 Hself] & _).
  - apply levels_cachedb_sound. vm_compute. reflexivity.
  - eexists. split; vm_compute; reflexivity.
  - vm_compute. reflexivity.
  - vm_compute. reflexivity.
  - left.
  - vm_compute. reflexivity.
  - by exists h2, h3.
Defined.
